(** * The Celery dispatch loop of the execution model

  A shallow embedding of
  [execution_model/celery_instance/core_execution_loop_copy.py]:
  the priority helpers [_get_run_priority], [_get_step_priority] and
  [priority_for_step], and the generator [core_celery_execution_loop].

  The generator talks to three collaborators that live in libraries
  outside the repository: the active-execution tracker (Dagster), the
  pending-result handles and the submission function (Celery).  They are
  an interface here ([Collaborators]); the loop is written once over any
  implementation of it.  What the generator yields, and every call by
  which it changes a collaborator, is logged in a trace of [Action]s in
  program order, so that statements about "what the loop does in a tick"
  are statements about that trace. *)

From stdpp Require Import gmap strings list.
From Stdlib Require Import ZArith Ascii String Sorted.

Open Scope Z_scope.

(** ** Exceptions

  Only subclasses of Python's [Exception] are modelled: the two handlers
  of the loop are [except TaskRevokedError] and [except Exception]. *)

(** [SerializableErrorInfo]: what [serializable_error_info_from_exc_info]
  keeps of an exception (the traceback is left out). *)
Record SerializableErrorInfo := {
  cls_name : string;
  message : string
}.

Inductive exn :=
| ValueError (msg : string)
| TypeError (msg : string)
| TaskRevokedError (msg : string)
| CheckError (msg : string)
| DagsterSubprocessError (msg : string)
  (subprocess_error_infos : list SerializableErrorInfo)
| OtherException (cls msg : string).

Definition serializable_error_info_from_exc_info (e : exn)
  : SerializableErrorInfo :=
  match e with
  | ValueError m => {| cls_name := "ValueError"; message := m |}
  | TypeError m => {| cls_name := "TypeError"; message := m |}
  | TaskRevokedError m => {| cls_name := "TaskRevokedError"; message := m |}
  | CheckError m => {| cls_name := "CheckError"; message := m |}
  | DagsterSubprocessError m _ =>
      {| cls_name := "DagsterSubprocessError"; message := m |}
  | OtherException c m => {| cls_name := c; message := m |}
  end.

Definition to_string (err : SerializableErrorInfo) : string :=
  cls_name err +:+ ": " +:+ message err.

Definition is_revoked (e : exn) : bool :=
  match e with TaskRevokedError _ => true | _ => false end.

(** ** Data *)

(** An [ExecutionStep]: its key and its tags (string to string). *)
Record ExecutionStep := {
  key : string;
  tags : gmap string string
}.

(** The part of [ExecutionPlan] the loop reads. *)
Record ExecutionPlan := {
  step_dict_by_key : gmap string ExecutionStep;
  step_keys_to_execute : list string;
  artifacts_persisted : bool
}.

(** The part of [PlanOrchestrationContext] the loop reads: the run tags. *)
Record PlanOrchestrationContext := {
  run_tags : gmap string string
}.

Definition has_tag (context : PlanOrchestrationContext) (k : string) : bool :=
  bool_decide (is_Some (run_tags context !! k)).

Definition get_tag (context : PlanOrchestrationContext) (k : string)
  : option string :=
  run_tags context !! k.

(** [ExecutionPlan.get_step_by_key] fails a check on an unknown key. *)
Definition get_step_by_key (execution_plan : ExecutionPlan) (k : string)
  : exn + ExecutionStep :=
  match step_dict_by_key execution_plan !! k with
  | Some step => inr step
  | None => inl (CheckError ("plan has no step with key " +:+ k))
  end.

(** ** Constants of the module *)

Definition DAGSTER_CELERY_STEP_PRIORITY_TAG : string := "dagster-celery/priority".
Definition DAGSTER_CELERY_RUN_PRIORITY_TAG : string := "dagster-celery/run_priority".
Definition DAGSTER_CELERY_QUEUE_TAG : string := "dagster-celery/queue".
Definition PRIORITY_TAG : string := "dagster/priority".
Definition TICK_SECONDS : Z := 1.
Definition DELEGATE_MARKER : string := "celery_queue_wait".

(** The module [celery_instance.dagster_celery_config] is outside this
    development; its two constants are parameters of everything below. *)
Record dagster_celery_config := {
  task_default_priority : Z;
  task_default_queue : string
}.

(** ** Priorities

  Python's [int] on a [str] belongs to the interpreter, not to this
  program.  It is a parameter of the priority helpers: [int v] is the
  integer [int(v)] returns, or else the message of the [ValueError] it
  raises ([int] of a [str] raises no other exception). *)
Section Priorities.
Variable int : string -> string + Z.

(** [int(v)] for a string [v]. *)
Definition int_of_str (v : string) : exn + Z :=
  match int v with
  | inr n => inr n
  | inl msg => inl (ValueError msg)
  end.

(** [int(x)] where [x] is what [get_tag] returned: a string tag or
  nothing at all. *)
Definition int_of_tag (o : option string) : exn + Z :=
  match o with
  | Some v => int_of_str v
  | None =>
      inl (TypeError "int() argument must be a string, a bytes-like object or a real number, not 'NoneType'")
  end.

Definition _get_run_priority (context : PlanOrchestrationContext) : exn + Z :=
  if negb (has_tag context DAGSTER_CELERY_RUN_PRIORITY_TAG) then inr 0
  else
    match int_of_tag (get_tag context DAGSTER_CELERY_RUN_PRIORITY_TAG) with
    | inr n => inr n
    | inl (ValueError _) => inr 0
    | inl e => inl e
    end.

(** [int(step.tags.get(DAGSTER_CELERY_STEP_PRIORITY_TAG, task_default_priority))]:
  the default is already an integer. *)
Definition step_priority_tag (cfg : dagster_celery_config)
    (step : ExecutionStep) : exn + Z :=
  match tags step !! DAGSTER_CELERY_STEP_PRIORITY_TAG with
  | Some v => int_of_str v
  | None => inr (task_default_priority cfg)
  end.

Definition _get_step_priority (cfg : dagster_celery_config)
    (context : PlanOrchestrationContext) (step : ExecutionStep) : exn + Z :=
  match _get_run_priority context with
  | inl e => inl e
  | inr run_priority =>
      match step_priority_tag cfg step with
      | inl e => inl e
      | inr step_priority => inr (run_priority + step_priority)
      end
  end.

Definition priority_for_step (cfg : dagster_celery_config)
    (pipeline_context : PlanOrchestrationContext) (step : ExecutionStep)
  : exn + Z :=
  match step_priority_tag cfg step with
  | inl e => inl e
  | inr step_priority =>
      match _get_run_priority pipeline_context with
      | inl e => inl e
      | inr run_priority => inr (-1 * step_priority + -1 * run_priority)
      end
  end.

Definition priority_for_key (cfg : dagster_celery_config)
    (pipeline_context : PlanOrchestrationContext)
    (execution_plan : ExecutionPlan) (step_key : string) : exn + Z :=
  match get_step_by_key execution_plan step_key with
  | inl e => inl e
  | inr step => priority_for_step cfg pipeline_context step
  end.

End Priorities.

(** ** Python's [sorted(l, key=f)]

  All keys are computed first, in list order (a key that raises aborts
  the call); the sort is stable. *)
Section Sorted.
Context {A : Type}.

Fixpoint keyed (f : A -> exn + Z) (l : list A) : exn + list (Z * A) :=
  match l with
  | [] => inr []
  | x :: l' =>
      match f x with
      | inl e => inl e
      | inr k =>
          match keyed f l' with
          | inl e => inl e
          | inr kl => inr ((k, x) :: kl)
          end
      end
  end.

Fixpoint insert_keyed (x : Z * A) (l : list (Z * A)) : list (Z * A) :=
  match l with
  | [] => [x]
  | y :: l' => if x.1 <=? y.1 then x :: l else y :: insert_keyed x l'
  end.

Definition sort_keyed (l : list (Z * A)) : list (Z * A) :=
  foldr insert_keyed [] l.

Definition sorted (f : A -> exn + Z) (l : list A) : exn + list A :=
  match keyed f l with
  | inl e => inl e
  | inr kl => inr ((sort_keyed kl).*2)
  end.

(** The order of the keyed list after the sort. *)
Definition by_key : relation (Z * A) := fun x y => x.1 <= y.1.

End Sorted.

(** ** Python dictionaries, in insertion order *)
Section Dict.
Context {V : Type}.

Fixpoint dict_set (k : string) (v : V) (d : list (string * V))
  : list (string * V) :=
  match d with
  | [] => [(k, v)]
  | (k', v') :: d' =>
      if String.eqb k k' then (k, v) :: d' else (k', v') :: dict_set k v d'
  end.

Fixpoint dict_del (k : string) (d : list (string * V))
  : list (string * V) :=
  match d with
  | [] => []
  | (k', v') :: d' =>
      if String.eqb k k' then d' else (k', v') :: dict_del k d'
  end.

Fixpoint dict_get (k : string) (d : list (string * V)) : option V :=
  match d with
  | [] => None
  | (k', v') :: d' => if String.eqb k k' then Some v' else dict_get k d'
  end.

Definition dict_in (k : string) (d : list (string * V)) : bool :=
  existsb (String.eqb k) d.*1.

Definition dict_truthy (d : list (string * V)) : bool :=
  match d with [] => false | _ => true end.

End Dict.

(** ** Events and actions *)

Inductive EngineEventData :=
| interrupted (steps_interrupted : list string)
| marker_start (marker : string)
| marker_end (marker : string)
| engine_error (error : SerializableErrorInfo).

(** A [DagsterEvent] is an engine event of the loop itself (for the run,
  or for a step when the context is [pipeline_context.for_step(step)]),
  an event deserialized from a worker's result, or an event made by the
  tracker. *)
Inductive DagsterEvent :=
| engine_event (step_key : option string) (msg : string)
  (event_specific_data : EngineEventData)
| deserialize_json_to_dagster_namedtuple (step_event : string)
| plan_event (payload : string).

Definition dquote : string := String (ascii_of_nat 34) EmptyString.

Definition revoked_message (step_key : string) : string :=
  "celery task for running step " +:+ dquote +:+ step_key +:+ dquote
  +:+ " was revoked.".

Definition submitting_message (step_key queue : string) : string :=
  "Submitting celery task for step " +:+ dquote +:+ step_key +:+ dquote
  +:+ " to queue " +:+ dquote +:+ queue +:+ dquote +:+ ".".

Definition interrupted_message : string :=
  "Celery executor: received termination signal - revoking active tasks from workers".

Definition submission_error_message : string :=
  "Encountered error during celery task submission.".

Section Interface.

(** [W] is the state of everything outside the generator: the tracker,
    the broker and the workers, the clock.  [Handle] is Celery's
    [AsyncResult]. *)
Context {W Handle : Type}.

Inductive Action :=
| Yield (event : DagsterEvent)
| LogWarn (msg : string)
| MarkInterrupted
| Revoke (result : Handle)
| HandleEvent (step_key : string) (event : DagsterEvent)
| VerifyComplete (step_key : string)
| Submit (step : ExecutionStep) (queue : string) (priority : Z)
| Sleep (seconds : Z).

(** The collaborators.  Each operation takes the outside state and gives
    it back; [get] and [step_execution_fn] may raise, and so may
    [verify_complete] and [get_steps_to_execute]; the latter is handed
    the [sort_key_fn] that [execution_plan.start] received.
    [step_execution_fn] finds the app, the context and the tracker's known
    state in [W]. *)
Class Collaborators := {
  is_complete : W -> bool;
  check_for_interrupts : W -> bool * W;
  mark_interrupted : W -> W;
  get_steps_to_execute :
    (ExecutionStep -> exn + Z) -> W -> (exn + list ExecutionStep) * W;
  handle_event : DagsterEvent -> W -> W;
  verify_complete : string -> W -> (exn + unit) * W;
  plan_events_iterator : W -> list DagsterEvent * W;
  revoke : Handle -> W -> W;
  ready : Handle -> W -> bool * W;
  get : Handle -> W -> (exn + list string) * W;
  step_execution_fn :
    ExecutionStep -> string -> Z -> W -> (exn + Handle) * W;
  sleep : Z -> W -> W
}.

(** The generator's own variables, with the outside state. *)
Record LoopState := {
  world : W;
  step_results : list (string * Handle);
  step_errors : list (string * SerializableErrorInfo);
  stopping : bool
}.

Inductive Res (A : Type) :=
| Ok (a : A) (s : LoopState)
| Raise (e : exn) (s : LoopState).
#[global] Arguments Ok {A} a s.
#[global] Arguments Raise {A} e s.

Definition state_of {A} (r : Res A) : LoopState :=
  match r with Ok _ s => s | Raise _ s => s end.

(** A computation: from a state to the actions it performs and either a
    value or a raised exception; what it did to the state before raising
    stays done. *)
Definition M (A : Type) : Type := LoopState -> list Action * Res A.

#[global] Instance M_ret : MRet M := fun A a s => ([], Ok a s).

#[global] Instance M_bind : MBind M := fun A B f m s =>
  match m s with
  | (t, Ok a s') => let '(t', r) := f a s' in (t ++ t', r)
  | (t, Raise e s') => (t, Raise e s')
  end.

Definition raise {A} (e : exn) : M A := fun s => ([], Raise e s).

Definition tell (a : Action) : M unit := fun s => ([a], Ok tt s).

Definition of_sum {A} (x : exn + A) : M A :=
  match x with inl e => raise e | inr a => mret a end.

Definition try_except {A} (m : M A) (handler : exn -> M A) : M A :=
  fun s =>
    match m s with
    | (t, Ok a s') => (t, Ok a s')
    | (t, Raise e s') => let '(t', r) := handler e s' in (t ++ t', r)
    end.

Definition get_state : M LoopState := fun s => ([], Ok s s).

Definition with_world (w : W) (s : LoopState) : LoopState :=
  {| world := w; step_results := step_results s;
     step_errors := step_errors s; stopping := stopping s |}.

Definition call {A} (op : W -> A * W) : M A := fun s =>
  let '(a, w) := op (world s) in ([], Ok a (with_world w s)).

Definition call_ (op : W -> W) : M unit := fun s =>
  ([], Ok tt (with_world (op (world s)) s)).

Definition set_stopping (b : bool) : M unit := fun s =>
  ([], Ok tt {| world := world s; step_results := step_results s;
                step_errors := step_errors s; stopping := b |}).

Definition set_step_result (k : string) (result : Handle) : M unit :=
  fun s =>
    ([], Ok tt {| world := world s;
                  step_results := dict_set k result (step_results s);
                  step_errors := step_errors s; stopping := stopping s |}).

Definition del_step_result (k : string) : M unit := fun s =>
  ([], Ok tt {| world := world s;
                step_results := dict_del k (step_results s);
                step_errors := step_errors s; stopping := stopping s |}).

Definition set_step_error (k : string) (err : SerializableErrorInfo)
  : M unit :=
  fun s =>
    ([], Ok tt {| world := world s; step_results := step_results s;
                  step_errors := dict_set k err (step_errors s);
                  stopping := stopping s |}).

Fixpoint for_each {A} (body : A -> M unit) (l : list A) : M unit :=
  match l with
  | [] => mret tt
  | x :: l' => body x ;; for_each body l'
  end.

(** The state in which the generator starts. *)
Definition initial_state (w : W) : LoopState :=
  {| world := w; step_results := []; step_errors := []; stopping := false |}.

End Interface.

(** ** A scripted implementation of the collaborators

    Used for the concrete runs below.  A handle is the key of its step.
    The script says what the coming calls answer: the interrupt polls, the
    ready steps of each tick (in plan order), for how many polls a result
    stays pending, and what it finally holds. *)
Module Sim.

(** [strict] says whether [verify_complete] raises for a step that never
    reached a terminal state, as the spec has it (4.1), or settles the
    step itself. *)
Record World := {
  interrupts : list bool;
  releases : list (list ExecutionStep);
  unfinished : list string;
  delays : list (string * nat);
  outcomes : list (string * (exn + list string));
  refused : list (string * exn);
  strict : bool;
  clock : Z
}.

Fixpoint lookup {V} (k : string) (d : list (string * V)) : option V :=
  match d with
  | [] => None
  | (k', v) :: d' => if String.eqb k k' then Some v else lookup k d'
  end.

Definition remove (k : string) (l : list string) : list string :=
  filter (fun k' => k' ≠ k) l.

Definition sim_check_for_interrupts (w : World) : bool * World :=
  match interrupts w with
  | [] => (false, w)
  | b :: rest =>
      (b, {| interrupts := rest; releases := releases w;
             unfinished := unfinished w; delays := delays w;
             outcomes := outcomes w; refused := refused w;
             strict := strict w; clock := clock w |})
  end.

Definition sim_mark_interrupted (w : World) : World :=
  {| interrupts := interrupts w; releases := [];
     unfinished := unfinished w; delays := delays w;
     outcomes := outcomes w; refused := refused w;
     strict := strict w; clock := clock w |}.

(** Modelled from the spec: the tracker is not part of the sources.
    [get_steps_to_execute] returns the steps that are ready, in plan
    order (4.1); the [sort_key_fn] that [execution_plan.start] was given
    plays no part in it. *)
Definition sim_get_steps_to_execute (sort_key_fn : ExecutionStep -> exn + Z)
    (w : World) : (exn + list ExecutionStep) * World :=
  match releases w with
  | [] => (inr [], w)
  | ready_steps :: rest =>
      (inr ready_steps,
       {| interrupts := interrupts w; releases := rest;
          unfinished := unfinished w; delays := delays w;
          outcomes := outcomes w; refused := refused w;
          strict := strict w; clock := clock w |})
  end.

Definition finish (k : string) (w : World) : World :=
  {| interrupts := interrupts w; releases := releases w;
     unfinished := remove k (unfinished w); delays := delays w;
     outcomes := outcomes w; refused := refused w;
     strict := strict w; clock := clock w |}.

(** A worker's event is the key of the step that succeeded. *)
Definition sim_handle_event (event : DagsterEvent) (w : World) : World :=
  match event with
  | deserialize_json_to_dagster_namedtuple k => finish k w
  | _ => w
  end.

(** Modelled from the spec: [verify_complete] raises an internal
    consistency failure if the step was never marked terminal (4.1).  A
    tracker that is not [strict] settles such a step instead. *)
Definition sim_verify_complete (k : string) (w : World)
  : (exn + unit) * World :=
  if strict w && bool_decide (k ∈ unfinished w)
  then (inl (CheckError ("step " +:+ k +:+ " was never marked terminal")), w)
  else (inr tt, finish k w).

Definition sim_revoke (h : string) (w : World) : World :=
  {| interrupts := interrupts w; releases := releases w;
     unfinished := unfinished w; delays := delays w;
     outcomes := dict_set h (inl (TaskRevokedError h)) (outcomes w);
     refused := refused w; strict := strict w; clock := clock w |}.

Definition sim_ready (h : string) (w : World) : bool * World :=
  match lookup h (delays w) with
  | Some (S n) =>
      (false, {| interrupts := interrupts w; releases := releases w;
                 unfinished := unfinished w;
                 delays := dict_set h n (delays w);
                 outcomes := outcomes w; refused := refused w;
                 strict := strict w; clock := clock w |})
  | _ => (true, w)
  end.

Definition sim_get (h : string) (w : World)
  : (exn + list string) * World :=
  (default (inr []) (lookup h (outcomes w)), w).

Definition sim_step_execution_fn (step : ExecutionStep) (queue : string)
    (priority : Z) (w : World) : (exn + string) * World :=
  match lookup (key step) (refused w) with
  | Some e => (inl e, w)
  | None => (inr (key step), w)
  end.

Definition sim_sleep (seconds : Z) (w : World) : World :=
  {| interrupts := interrupts w; releases := releases w;
     unfinished := unfinished w; delays := delays w;
     outcomes := outcomes w; refused := refused w;
     strict := strict w; clock := clock w + seconds |}.

#[global] Instance collaborators : @Collaborators World string := {
    is_complete w := bool_decide (unfinished w = []);
    check_for_interrupts := sim_check_for_interrupts;
    mark_interrupted := sim_mark_interrupted;
    get_steps_to_execute := sim_get_steps_to_execute;
    handle_event := sim_handle_event;
    verify_complete := sim_verify_complete;
    plan_events_iterator w := ([], w);
    revoke := sim_revoke;
    ready := sim_ready;
    get := sim_get;
    step_execution_fn := sim_step_execution_fn;
    sleep := sim_sleep
  }.

(** The [int] of the scripted runs.  The priority tags of the runs are
    numerals written with the digits 0 to 9, or words: a numeral gives its
    number, a word the [ValueError] of [int].  Nothing more of Python's
    [int] is needed for the runs and nothing more is covered here: signs,
    blanks, underscores and other digits are not read. *)
Fixpoint numeral (acc : Z) (l : list ascii) : option Z :=
  match l with
  | [] => Some acc
  | c :: l' =>
      let n := nat_of_ascii c in
      if ((48 <=? n) && (n <=? 57))%nat
      then numeral (acc * 10 + Z.of_nat (n - 48)) l'
      else None
  end.

Definition sim_int (v : string) : string + Z :=
  match list_ascii_of_string v with
  | [] => inl "invalid literal for int() with base 10: ''"
  | l =>
      match numeral 0 l with
      | Some n => inr n
      | None =>
          inl ("invalid literal for int() with base 10: '" +:+ v +:+ "'")
      end
  end.

(** Modelled from the spec: the configuration module is not part of the
    sources; the default priority is 0 (4.2). *)
Definition cfg : dagster_celery_config :=
  {| task_default_priority := 0; task_default_queue := "dagster" |}.

Definition step_with_priority (k v : string) : ExecutionStep :=
  {| key := k; tags := {[ DAGSTER_CELERY_STEP_PRIORITY_TAG := v ]} |}.

Definition plain_step (k : string) : ExecutionStep :=
  {| key := k; tags := ∅ |}.

Definition plan_of (steps : list ExecutionStep) : ExecutionPlan :=
  {| step_dict_by_key := list_to_map ((fun step => (key step, step)) <$> steps);
     step_keys_to_execute := key <$> steps;
     artifacts_persisted := true |}.

Definition no_run_priority : PlanOrchestrationContext :=
  {| run_tags := ∅ |}.

Definition script (steps : list ExecutionStep) : World :=
  {| interrupts := []; releases := [steps]; unfinished := key <$> steps;
     delays := []; outcomes := (fun step => (key step, inr [key step])) <$> steps;
     refused := []; strict := false; clock := 0 |}.

(** *** The scripts of the concrete runs *)

Definition start (w : World) : @LoopState World string := initial_state w.

Definition scripted (interrupts : list bool)
    (releases : list (list ExecutionStep)) (unfinished : list string)
    (delays : list (string * nat))
    (outcomes : list (string * (exn + list string)))
    (refused : list (string * exn)) : World :=
  {| interrupts := interrupts; releases := releases;
     unfinished := unfinished; delays := delays; outcomes := outcomes;
     refused := refused; strict := false; clock := 0 |}.

(** The same world with a tracker that checks. *)
Definition checked (w : World) : World :=
  {| interrupts := interrupts w; releases := releases w;
     unfinished := unfinished w; delays := delays w;
     outcomes := outcomes w; refused := refused w;
     strict := true; clock := clock w |}.

Definition step_a : ExecutionStep := plain_step "a".
Definition step_b : ExecutionStep := plain_step "b".
Definition step_c : ExecutionStep := plain_step "c".

Definition boom : exn := OtherException "RuntimeError" "boom".

(** Steps with the priority tags 5, 1 and 10, all ready at the start. *)
Definition three_priorities : list ExecutionStep :=
  [step_with_priority "a" "5"; step_with_priority "b" "1";
   step_with_priority "c" "10"].

(** Step [a] is submitted and takes a while; [b] waits for it.  The
    second interrupt poll answers true. *)
Definition interrupted_run : World :=
  scripted [false; true] [[step_a]] ["a"; "b"] [("a", 3%nat)]
    [("a", inr ["a"])] [].

(** Where [interrupted_run] leaves the loop. *)
Definition after_interrupted_run : @LoopState World string :=
  {| world := {| interrupts := []; releases := []; unfinished := ["b"];
                 delays := [("a", 0%nat)];
                 outcomes := [("a", inl (TaskRevokedError "a"))];
                 refused := []; strict := false; clock := 1 |};
     step_results := []; step_errors := []; stopping := true |}.

(** Step [a] is in flight and will stay so for some polls; the next two
    interrupt polls answer true. *)
Definition interrupted_twice : @LoopState World string :=
  {| world := scripted [true; true] [] ["a"] [("a", 5%nat)]
                [("a", inr ["a"])] [];
     step_results := [("a", "a")]; step_errors := []; stopping := false |}.

(** Step [a] is in flight; step [c] is ready to be released; the next
    interrupt poll answers true. *)
Definition interrupted_with_ready_step : @LoopState World string :=
  {| world := scripted [true] [[step_c]] ["a"; "c"] [("a", 2%nat)]
                [("a", inr ["a"])] [];
     step_results := [("a", "a")]; step_errors := []; stopping := false |}.

(** Steps [a] and [b] are ready at the start; the worker of [a] fails at
    once, [b] succeeds after three polls. *)
Definition one_failure : World :=
  scripted [] [[step_a; step_b]] ["a"; "b"] [("b", 3%nat)]
    [("a", inl boom); ("b", inr ["b"])] [].

(** [one_failure] after its second iteration: the error of [a] is on
    record and [b] is still in flight. *)
Definition failed_and_waiting : @LoopState World string :=
  {| world := {| interrupts := []; releases := []; unfinished := ["b"];
                 delays := [("b", 2%nat)];
                 outcomes := [("a", inl boom); ("b", inr ["b"])];
                 refused := []; strict := false; clock := 1 |};
     step_results := [("b", "b")];
     step_errors := [("a", serializable_error_info_from_exc_info boom)];
     stopping := false |}.

(** The results of [a] and [b] are both there; the one of [a] is a
    failure of its worker. *)
Definition two_results : @LoopState World string :=
  {| world := scripted [] [] ["a"; "b"] []
                [("a", inl boom); ("b", inr ["b"])] [];
     step_results := [("a", "a"); ("b", "b")]; step_errors := [];
     stopping := false |}.

(** [two_results] with a tracker that checks: the failed step [a] is
    not terminal when its handle is removed. *)
Definition two_results_checked : @LoopState World string :=
  {| world := checked (world two_results);
     step_results := [("a", "a"); ("b", "b")]; step_errors := [];
     stopping := false |}.

(** Steps [a], [b] and [c] are ready at the start; the broker refuses
    [b]. *)
Definition refused_submission : World :=
  scripted [] [[step_a; step_b; step_c]] ["a"; "b"; "c"] [] []
    [("b", boom)].

(** Where the loop stops on [refused_submission]: [a] is in flight. *)
Definition after_refusal : @LoopState World string :=
  {| world := scripted [] [] ["a"; "b"; "c"] [] [] [("b", boom)];
     step_results := [("a", "a")]; step_errors := []; stopping := false |}.

(** A step whose priority tag is not a number, ready together with [a]
    and [c], between them in plan order. *)
Definition step_h : ExecutionStep := step_with_priority "h" "high".

Definition unparseable_priority : World :=
  scripted [] [[step_a; step_h; step_c]] ["a"; "h"; "c"] [] [] [].

(** Where the loop stops on [unparseable_priority]: [a] is in flight. *)
Definition after_unparseable_priority : @LoopState World string :=
  {| world := scripted [] [] ["a"; "h"; "c"] [] [] [];
     step_results := [("a", "a")]; step_errors := []; stopping := false |}.

(** A run whose priority tag is not a number. *)
Definition urgent_run : PlanOrchestrationContext :=
  {| run_tags := {[ DAGSTER_CELERY_RUN_PRIORITY_TAG := "urgent" ]} |}.

(** A plan whose artifacts stay in memory. *)
Definition in_memory_plan : ExecutionPlan :=
  {| step_dict_by_key := {[ "a" := step_a ]};
     step_keys_to_execute := ["a"];
     artifacts_persisted := false |}.

(** Nothing to run, nothing unfinished. *)
Definition idle : World := scripted [] [] [] [] [] [].

(** Step [m] has the tag of Dagster's own priority only, step [n] has
    both tags, step [a] none. *)
Definition step_m : ExecutionStep :=
  {| key := "m"; tags := {[ PRIORITY_TAG := "3" ]} |}.

Definition step_n : ExecutionStep :=
  {| key := "n";
     tags := {[ PRIORITY_TAG := "3";
                DAGSTER_CELERY_STEP_PRIORITY_TAG := "3" ]} |}.

(** The result of [a] is there and tells that the task was revoked. *)
Definition revoked_result : @LoopState World string :=
  {| world := scripted [] [] ["a"] [] [("a", inl (TaskRevokedError "a"))] [];
     step_results := [("a", "a")]; step_errors := []; stopping := true |}.

End Sim.

(** * The generator *)

Section Loop.

Context {W Handle : Type} {collaborators : @Collaborators W Handle}.
Variable int : string -> string + Z.
Variable cfg : dagster_celery_config.
Variable pipeline_context : PlanOrchestrationContext.
Variable execution_plan : ExecutionPlan.

#[local] Abbreviation M := (@M W Handle).
#[local] Abbreviation LoopState := (@LoopState W Handle).
#[local] Abbreviation Res := (@Res W Handle).
#[local] Abbreviation Action := (@Action Handle).

Implicit Types s : LoopState.
Implicit Types t : list Action.

(** *** The body of the [while] *)

(** [if active_execution.check_for_interrupts(): ...] *)
Definition interrupt_phase : M unit :=
  interrupt ← call check_for_interrupts;
  if (interrupt : bool) then
    s ← get_state;
    tell (Yield (engine_event None interrupted_message
                   (interrupted (step_results s).*1)));;
    set_stopping true;;
    tell MarkInterrupted;;
    call_ mark_interrupted;;
    for_each (fun result => tell (Revoke result);; call_ (revoke result))
      (step_results s).*2
  else mret tt.

(** [step_events = result.get()] under its two handlers. *)
Definition fetch (step_key : string) (result : Handle)
  : M (list string) :=
  outcome ← call (get result);
  match outcome with
  | inr step_events => mret step_events
  | inl (TaskRevokedError _) =>
      step ← of_sum (get_step_by_key execution_plan step_key);
      tell (Yield (engine_event (Some (key step))
                     (revoked_message step_key)
                     (marker_end DELEGATE_MARKER)));;
      mret []
  | inl e =>
      set_step_error step_key (serializable_error_info_from_exc_info e);;
      mret []
  end.

(** One turn of [for step_key, result in sorted(step_results.items(), ...)];
    the value is [results_to_pop]. *)
Definition scan_one (results_to_pop : list string)
    (item : string * Handle) : M (list string) :=
  let '(step_key, result) := item in
  is_ready ← call (ready result);
  if (is_ready : bool) then
    step_events ← fetch step_key result;
    for_each (fun step_event =>
                let event := deserialize_json_to_dagster_namedtuple step_event in
                tell (Yield event);;
                tell (HandleEvent step_key event);;
                call_ (handle_event event))
      step_events;;
    mret (results_to_pop ++ [step_key])
  else mret results_to_pop.

Fixpoint scan (results_to_pop : list string)
    (items : list (string * Handle)) : M (list string) :=
  match items with
  | [] => mret results_to_pop
  | item :: items' =>
      results_to_pop' ← scan_one results_to_pop item;
      scan results_to_pop' items'
  end.

Definition scan_phase : M (list string) :=
  s ← get_state;
  items ← of_sum (sorted (fun x => priority_for_key int cfg pipeline_context
                                      execution_plan x.1)
                    (step_results s));
  scan [] items.

(** [for step_key in results_to_pop: ...] *)
Definition pop_phase (results_to_pop : list string) : M unit :=
  for_each (fun step_key =>
              s ← get_state;
              if dict_in step_key (step_results s) then
                del_step_result step_key;;
                tell (VerifyComplete step_key);;
                outcome ← call (verify_complete step_key);
                of_sum outcome
              else mret tt)
    results_to_pop.

(** [for event in active_execution.plan_events_iterator(...): yield event] *)
Definition plan_events_phase : M unit :=
  events ← call plan_events_iterator;
  for_each (fun event => tell (Yield event)) events.

(** The [try] ... [except Exception] around one submission. *)
Definition submit_step (step : ExecutionStep) : M unit :=
  try_except
    (let queue := default (task_default_queue cfg)
                    (tags step !! DAGSTER_CELERY_QUEUE_TAG) in
     tell (Yield (engine_event (Some (key step))
                    (submitting_message (key step) queue)
                    (marker_start DELEGATE_MARKER)));;
     priority ← of_sum (_get_step_priority int cfg pipeline_context step);
     tell (Submit step queue priority);;
     outcome ← call (step_execution_fn step queue priority);
     result ← of_sum outcome;
     set_step_result (key step) result)
    (fun e =>
       tell (Yield (engine_event None submission_error_message
                      (engine_error
                         (serializable_error_info_from_exc_info e))));;
       raise e).

Definition submit_phase : M unit :=
  outcome ← call (get_steps_to_execute
                    (priority_for_step int cfg pipeline_context));
  steps ← of_sum outcome;
  for_each submit_step steps.

(** Everything up to the comment "don't add any new steps if we are
    stopping". *)
Definition poll_phase : M unit :=
  interrupt_phase;;
  results_to_pop ← scan_phase;
  pop_phase results_to_pop;;
  plan_events_phase.

(** [if stopping or step_errors] *)
Definition skip_submission (s : LoopState) : bool :=
  stopping s || dict_truthy (step_errors s).

(** One iteration.  The [continue] ends it before the submissions and
    before [time.sleep(TICK_SECONDS)]. *)
Definition tick : M unit :=
  poll_phase;;
  s ← get_state;
  if skip_submission s then mret tt
  else
    submit_phase;;
    tell (Sleep TICK_SECONDS);;
    call_ (sleep TICK_SECONDS).

(** [(not active_execution.is_complete and not stopping) or step_results] *)
Definition loop_condition (s : LoopState) : bool :=
  (negb (is_complete (world s)) && negb (stopping s))
  || dict_truthy (step_results s).

(** The [while], with a bound on the number of iterations: [None] when
    the bound is reached with the condition still true. *)
Fixpoint while_loop (fuel : nat) (s : LoopState)
  : option (list Action * Res unit) :=
  if loop_condition s then
    match fuel with
    | O => None
    | S fuel' =>
        match tick s with
        | (t, Ok _ s') =>
            match while_loop fuel' s' with
            | Some (t', r) => Some (t ++ t', r)
            | None => None
            end
        | (t, Raise e s') => Some (t, Raise e s')
        end
    end
  else Some ([], Ok tt s).

(** *** Before and after the [while] *)

(** The [for] of [_warn_on_priority_misuse]; the value is [bad_keys]. *)
Fixpoint misused_priority_keys (keys bad_keys : list string)
  : M (list string) :=
  match keys with
  | [] => mret bad_keys
  | k :: keys' =>
      step ← of_sum (get_step_by_key execution_plan k);
      if bool_decide (tags step !! PRIORITY_TAG ≠ None)
         && bool_decide (tags step !! DAGSTER_CELERY_STEP_PRIORITY_TAG = None)
      then misused_priority_keys keys' (bad_keys ++ [k])
      else misused_priority_keys keys' bad_keys
  end.

Definition _warn_on_priority_misuse : M unit :=
  bad_keys ← misused_priority_keys (step_keys_to_execute execution_plan) [];
  match bad_keys with
  | [] => mret tt
  | _ =>
      tell (LogWarn
        ("The following steps do not have " +:+ dquote
         +:+ "dagster-celery/priority" +:+ dquote +:+ " set but do have "
         +:+ dquote +:+ "dagster/priority" +:+ dquote
         +:+ " set which is not applicable for the celery engine: ["
         +:+ String.concat ", " bad_keys
         +:+ "]. Consider using a function to set both keys."))
  end.

Definition error_line (item : string * SerializableErrorInfo) : string :=
  "[" +:+ item.1 +:+ "]: " +:+ to_string item.2.

Definition newline : string := String (ascii_of_nat 10) EmptyString.

Definition aggregate_error
    (errors : list (string * SerializableErrorInfo)) : exn :=
  DagsterSubprocessError
    ("During celery execution errors occurred in workers:" +:+ newline
     +:+ String.concat newline (error_line <$> errors))
    errors.*2.

(** [if step_errors: raise DagsterSubprocessError(...)] *)
Definition raise_step_errors : M unit :=
  s ← get_state;
  if dict_truthy (step_errors s) then raise (aggregate_error (step_errors s))
  else mret tt.

Definition prelude : M unit :=
  (if (0 <? List.length (step_keys_to_execute execution_plan))%nat
      && negb (artifacts_persisted execution_plan)
   then raise (CheckError "Cannot use in-memory storage with Celery, use filesystem (on top of NFS or similar system that allows files to be available to all nodes), S3, or GCS")
   else mret tt);;
  _warn_on_priority_misuse.

(** The generator run to its end.  The type checks of the arguments and
    the construction of the Celery app happen outside; entering and
    leaving the tracker's context manager is taken to do nothing. *)
Definition core_celery_execution_loop (fuel : nat) (w : W)
  : option (list Action * Res unit) :=
  match prelude (initial_state w) with
  | (t0, Raise e s) => Some (t0, Raise e s)
  | (t0, Ok _ s0) =>
      match while_loop fuel s0 with
      | None => None
      | Some (t1, Raise e s) => Some (t0 ++ t1, Raise e s)
      | Some (t1, Ok _ s1) =>
          let '(t2, r) := raise_step_errors s1 in
          Some (t0 ++ t1 ++ t2, r)
      end
  end.

(** ** What is observed of a run *)

Definition emits (P : Action -> Prop) {A} (m : M A) : Prop :=
  forall s, Forall P (m s).1.

Definition relates (R : relation LoopState) {A} (m : M A)
  : Prop :=
  forall s, R s (state_of (m s).2).

Definition submitting_event (step : ExecutionStep) : DagsterEvent :=
  let queue := default (task_default_queue cfg)
                 (tags step !! DAGSTER_CELERY_QUEUE_TAG) in
  engine_event (Some (key step)) (submitting_message (key step) queue)
    (marker_start DELEGATE_MARKER).

Definition fatal_event (e : exn) : DagsterEvent :=
  engine_event None submission_error_message
    (engine_error (serializable_error_info_from_exc_info e)).

Definition is_submit (a : Action) : bool :=
  match a with Submit _ _ _ => true | _ => false end.

Definition is_sleep (a : Action) : bool :=
  match a with Sleep _ => true | _ => false end.

Definition is_revoke (a : Action) : bool :=
  match a with Revoke _ => true | _ => false end.

(** Submitting changes neither [stopping] nor [step_errors]. *)
Definition same_flags : relation LoopState :=
  fun s s' => stopping s' = stopping s /\ step_errors s' = step_errors s.

(** No key leaves [step_errors]. *)
Definition errors_kept : relation LoopState :=
  fun s s' => forall k, k ∈ (step_errors s).*1 -> k ∈ (step_errors s').*1.

Definition revoked (t : list Action) : list Handle :=
  omap (fun a => match a with Revoke h => Some h | _ => None end) t.

Definition revoke_all (handles : list Handle) (w : W) : W :=
  foldl (fun w h => revoke h w) w handles.

Definition record_error (k : string) (e : exn) (w : W) s
  : LoopState :=
  {| world := w; step_results := step_results s;
     step_errors := dict_set k (serializable_error_info_from_exc_info e)
                      (step_errors s);
     stopping := stopping s |}.

Definition submit_priorities (t : list Action) : list Z :=
  omap (fun a => match a with Submit _ _ p => Some p | _ => None end) t.

(** *** Further observations *)

Definition submitted_steps (t : list Action) : list ExecutionStep :=
  omap (fun a => match a with Submit step _ _ => Some step | _ => None end) t.

(** The test of [_warn_on_priority_misuse] on one step. *)
Definition priority_misused (step : ExecutionStep) : bool :=
  bool_decide (tags step !! PRIORITY_TAG ≠ None)
  && bool_decide (tags step !! DAGSTER_CELERY_STEP_PRIORITY_TAG = None).

(** The keys of [keys] whose step in the plan fails that test. *)
Definition misused_keys (keys : list string) : list string :=
  List.filter (fun k => match step_dict_by_key execution_plan !! k with
                        | Some step => priority_misused step
                        | None => false
                        end) keys.

Definition misuse_warning (bad_keys : list string) : string :=
  "The following steps do not have " +:+ dquote
  +:+ "dagster-celery/priority" +:+ dquote +:+ " set but do have "
  +:+ dquote +:+ "dagster/priority" +:+ dquote
  +:+ " set which is not applicable for the celery engine: ["
  +:+ String.concat ", " bad_keys
  +:+ "]. Consider using a function to set both keys.".

(** What the scan does with the events of one result: each is yielded,
    then fed to the tracker. *)
Definition event_actions (step_key : string) (step_events : list string)
  : list Action :=
  step_events ≫= fun step_event =>
    [Yield (deserialize_json_to_dagster_namedtuple step_event);
     HandleEvent step_key
       (deserialize_json_to_dagster_namedtuple step_event)].

Definition handle_events (step_events : list string) (w : W) : W :=
  foldl (fun w step_event =>
           handle_event (deserialize_json_to_dagster_namedtuple step_event) w)
    w step_events.

(** An iteration after its interrupt poll. *)
Definition rest_of_tick : M unit :=
  (results_to_pop ← scan_phase;
   pop_phase results_to_pop;;
   plan_events_phase);;
  s ← get_state;
  if skip_submission s then mret tt
  else
    submit_phase;;
    tell (Sleep TICK_SECONDS);;
    call_ (sleep TICK_SECONDS).

(** [stopping] is never reset. *)
Definition stopping_kept : relation LoopState :=
  fun s s' => stopping s = true -> stopping s' = true.

(** An iteration after its scan of the outstanding handles. *)
Definition after_scan (results_to_pop : list string) : M unit :=
  (pop_phase results_to_pop;;
   plan_events_phase);;
  s ← get_state;
  if skip_submission s then mret tt
  else
    submit_phase;;
    tell (Sleep TICK_SECONDS);;
    call_ (sleep TICK_SECONDS).

(** The entry of [k] in [step_errors] stays what it is. *)
Definition same_error (k : string) : relation LoopState :=
  fun s s' => dict_get k (step_errors s') = dict_get k (step_errors s).

(** Once the submissions are skipped they stay skipped. *)
Definition skip_kept : relation LoopState :=
  fun s s' => skip_submission s = true -> skip_submission s' = true.

(** * Reasoning about computations *)

Lemma bind_run {A B} (m : M A) (f : A -> M B) s :
  (m ≫= f) s =
  match m s with
  | (t, Ok a s') => let '(t', r) := f a s' in (t ++ t', r)
  | (t, Raise e s') => (t, Raise e s')
  end.
Proof. reflexivity. Qed.

Lemma ret_bind {A B} (a : A) (f : A -> M B) s : (mret a ≫= f) s = f a s.
Proof. rewrite bind_run. simpl. by destruct (f a s). Qed.

Lemma bind_ok {A B} (m : M A) (f : A -> M B) s t a s' :
  m s = (t, Ok a s') -> (m ≫= f) s = (t ++ (f a s').1, (f a s').2).
Proof. intros E. rewrite bind_run, E. by destruct (f a s'). Qed.

Lemma bind_raise {A B} (m : M A) (f : A -> M B) s t e s' :
  m s = (t, Raise e s') -> (m ≫= f) s = (t, Raise e s').
Proof. intros E. by rewrite bind_run, E. Qed.

Lemma bind_assoc {A B C} (m : M A) (f : A -> M B) (g : B -> M C) s :
  ((m ≫= f) ≫= g) s = (m ≫= fun a => f a ≫= g) s.
Proof.
  rewrite !bind_run. destruct (m s) as [t [a s1|e s1]]; [|done].
  rewrite bind_run. destruct (f a s1) as [t1 [b s2|e s2]]; [|done].
  destruct (g b s2) as [t2 r]. by rewrite app_assoc.
Qed.

Lemma for_each_app {A} (body : A -> M unit) (l1 l2 : list A) s :
  for_each body (l1 ++ l2) s = (for_each body l1 ;; for_each body l2) s.
Proof.
  revert s. induction l1 as [|x l1 IH]; intros s; simpl.
  - rewrite bind_run. simpl. by destruct (for_each body l2 s).
  - rewrite !bind_run. destruct (body x s) as [t [[] s1|e s1]]; [|done].
    rewrite IH, bind_run.
    destruct (for_each body l1 s1) as [t1 [[] s2|e s2]]; [|done].
    destruct (for_each body l2 s2) as [t2 r2]. by rewrite app_assoc.
Qed.

(** ** What a computation emits *)

Section Emits.
Variable P : Action -> Prop.

Lemma emits_ret {A} (a : A) : emits P (mret a).
Proof. intros s. constructor. Qed.

Lemma emits_bind {A B} (m : M A) (f : A -> M B) :
  emits P m -> (forall a, emits P (f a)) -> emits P (m ≫= f).
Proof.
  intros Hm Hf s. rewrite bind_run. specialize (Hm s).
  destruct (m s) as [t [a s'|e s']]; simpl in *; [|done].
  specialize (Hf a s'). destruct (f a s') as [t' r]. simpl in *.
  by apply Forall_app.
Qed.

Lemma emits_raise {A} e : emits P (@raise W Handle A e).
Proof. intros s. constructor. Qed.

Lemma emits_tell a : P a -> emits P (@tell W Handle a).
Proof. intros Ha s. simpl. by repeat constructor. Qed.

Lemma emits_of_sum {A} (x : exn + A) : emits P (@of_sum W Handle A x).
Proof. destruct x; [apply emits_raise | apply emits_ret]. Qed.

Lemma emits_get_state : emits P (@get_state W Handle).
Proof. intros s. constructor. Qed.

Lemma emits_call {A} (op : W -> A * W) : emits P (@call W Handle A op).
Proof. intros s. unfold call. destruct (op (world s)). constructor. Qed.

Lemma emits_call_ (op : W -> W) : emits P (@call_ W Handle op).
Proof. intros s. constructor. Qed.

Lemma emits_set_stopping b : emits P (@set_stopping W Handle b).
Proof. intros s. constructor. Qed.

Lemma emits_set_step_result k h : emits P (@set_step_result W Handle k h).
Proof. intros s. constructor. Qed.

Lemma emits_del_step_result k : emits P (@del_step_result W Handle k).
Proof. intros s. constructor. Qed.

Lemma emits_set_step_error k err :
  emits P (@set_step_error W Handle k err).
Proof. intros s. constructor. Qed.

Lemma emits_try_except {A} (m : M A) handler :
  emits P m -> (forall e, emits P (handler e)) ->
  emits P (try_except m handler).
Proof.
  intros Hm Hh s. unfold try_except. specialize (Hm s).
  destruct (m s) as [t [a s'|e s']]; simpl in *; [done|].
  specialize (Hh e s'). destruct (handler e s') as [t' r]. simpl in *.
  by apply Forall_app.
Qed.

Lemma emits_for_each {A} (body : A -> M unit) (l : list A) :
  (forall x, emits P (body x)) -> emits P (for_each body l).
Proof.
  intros Hb. induction l as [|x l IH]; simpl.
  - apply emits_ret.
  - apply emits_bind; [apply Hb | intros _; apply IH].
Qed.

End Emits.

(** ** How a computation changes the state *)

Section Relates.
Variable R : relation LoopState.
Context `{!PreOrder R}.
Hypothesis R_world : forall s w, R s (with_world w s).

Lemma relates_ret {A} (a : A) : relates R (mret a).
Proof. intros s. simpl. reflexivity. Qed.

Lemma relates_bind {A B} (m : M A) (f : A -> M B) :
  relates R m -> (forall a, relates R (f a)) -> relates R (m ≫= f).
Proof.
  intros Hm Hf s. rewrite bind_run. specialize (Hm s).
  destruct (m s) as [t [a s'|e s']]; simpl in *; [|done].
  specialize (Hf a s'). destruct (f a s') as [t' r]. simpl in *.
  by etrans.
Qed.

Lemma relates_raise {A} e : relates R (@raise W Handle A e).
Proof. intros s. simpl. reflexivity. Qed.

Lemma relates_tell a : relates R (@tell W Handle a).
Proof. intros s. simpl. reflexivity. Qed.

Lemma relates_of_sum {A} (x : exn + A) : relates R (@of_sum W Handle A x).
Proof. destruct x; [apply relates_raise | apply relates_ret]. Qed.

Lemma relates_get_state : relates R (@get_state W Handle).
Proof. intros s. simpl. reflexivity. Qed.

Lemma relates_call {A} (op : W -> A * W) : relates R (@call W Handle A op).
Proof. intros s. unfold call. destruct (op (world s)). apply R_world. Qed.

Lemma relates_call_ (op : W -> W) : relates R (@call_ W Handle op).
Proof. intros s. apply R_world. Qed.

Lemma relates_try_except {A} (m : M A) handler :
  relates R m -> (forall e, relates R (handler e)) ->
  relates R (try_except m handler).
Proof.
  intros Hm Hh s. unfold try_except. specialize (Hm s).
  destruct (m s) as [t [a s'|e s']]; simpl in *; [done|].
  specialize (Hh e s'). destruct (handler e s') as [t' r]. simpl in *.
  by etrans.
Qed.

Lemma relates_for_each {A} (body : A -> M unit) (l : list A) :
  (forall x, relates R (body x)) -> relates R (for_each body l).
Proof.
  intros Hb. induction l as [|x l IH]; simpl.
  - apply relates_ret.
  - apply relates_bind; [apply Hb | intros _; apply IH].
Qed.

End Relates.

(** Structural steps shared by the proofs that a phase emits only some
    kind of action, or moves the state along some relation. *)
Ltac emits_step :=
  first
    [ apply emits_bind; [|intros ?]
    | apply emits_ret | apply emits_raise | apply emits_of_sum
    | apply emits_get_state | apply emits_call | apply emits_call_
    | apply emits_set_stopping | apply emits_set_step_result
    | apply emits_del_step_result | apply emits_set_step_error
    | apply emits_try_except; [|intros ?]
    | apply emits_for_each; intros ?
    | apply emits_tell ].

Ltac relates_step :=
  first
    [ apply relates_bind; [apply _| |intros ?]
    | apply relates_ret; apply _ | apply relates_raise; apply _
    | apply relates_of_sum; apply _
    | apply relates_get_state; apply _
    | apply relates_call; solve [auto]
    | apply relates_call_; solve [auto]
    | apply relates_try_except; [apply _| |intros ?]
    | apply relates_for_each; [apply _|intros ?]
    | apply relates_tell; apply _ ].

(** Case analysis on whatever the computation in the goal branches on. *)
Ltac branch_step :=
  match goal with
  | |- emits _ (match ?x with _ => _ end) => destruct x
  | |- relates _ (match ?x with _ => _ end) => destruct x
  end.

Ltac emits_auto := repeat first [emits_step | branch_step].
Ltac relates_auto := repeat first [relates_step | branch_step].

(** * The priority helpers *)

(** The run-level priority is always an integer: the handler absorbs the
    only exception [int] raises on a string. *)
Lemma _get_run_priority_total (context : PlanOrchestrationContext) :
  exists n, _get_run_priority int context = inr n.
Proof.
  unfold _get_run_priority, has_tag, get_tag, int_of_tag, int_of_str.
  destruct (run_tags context !! DAGSTER_CELERY_RUN_PRIORITY_TAG) as [v|] eqn:E.
  - rewrite bool_decide_eq_true_2 by eauto. simpl.
    destruct (int v) as [msg|n]; eauto.
  - rewrite bool_decide_eq_false_2 by (intros [? ?]; done). simpl. eauto.
Qed.

(** C9.  When the run-level priority tag is absent, or holds a string
    that cannot be parsed as an integer ([int] raises its [ValueError] on
    it), [_get_run_priority] returns 0; it does not raise.  This holds
    whatever strings the interpreter's [int] accepts. *)
Theorem run_priority_defaults_to_zero (context : PlanOrchestrationContext) :
  run_tags context !! DAGSTER_CELERY_RUN_PRIORITY_TAG = None
  \/ (exists v msg,
        run_tags context !! DAGSTER_CELERY_RUN_PRIORITY_TAG = Some v
        /\ int v = inl msg) ->
  _get_run_priority int context = inr 0.
Proof.
  unfold _get_run_priority, has_tag, get_tag, int_of_tag, int_of_str.
  intros [E|(v & msg & E & Ev)]; rewrite E.
  - by rewrite bool_decide_eq_false_2 by (intros [? ?]; done).
  - rewrite bool_decide_eq_true_2 by eauto. simpl. by rewrite Ev.
Qed.

(** The sort key is the negated priority that is sent with the task. *)
Lemma priority_for_step_opp context step p :
  _get_step_priority int cfg context step = inr p ->
  priority_for_step int cfg context step = inr (- p).
Proof.
  unfold _get_step_priority, priority_for_step.
  destruct (_get_run_priority int context) as [e|r]; [done|].
  destruct (step_priority_tag int cfg step) as [e|sp]; [done|].
  intros [= <-]. f_equal. lia.
Qed.

Lemma priority_for_step_inv context step k :
  priority_for_step int cfg context step = inr k ->
  _get_step_priority int cfg context step = inr (- k).
Proof.
  unfold _get_step_priority, priority_for_step.
  destruct (step_priority_tag int cfg step) as [e|sp]; [done|].
  destruct (_get_run_priority int context) as [e|r]; [done|].
  intros [= <-]. f_equal. lia.
Qed.

Lemma _get_step_priority_inv context step p :
  _get_step_priority int cfg context step = inr p ->
  exists step_priority run_priority,
    step_priority_tag int cfg step = inr step_priority
    /\ _get_run_priority int context = inr run_priority
    /\ p = run_priority + step_priority
    /\ priority_for_step int cfg context step
       = inr (-1 * step_priority + -1 * run_priority).
Proof.
  unfold _get_step_priority, priority_for_step.
  destruct (_get_run_priority int context) as [e|r]; [done|].
  destruct (step_priority_tag int cfg step) as [e|sp]; [done|].
  intros [= <-]. by exists sp, r.
Qed.

(** * Sorting *)

Section SortedFacts.
Context {A : Type}.
Implicit Types l : list (Z * A).

Lemma keyed_keys (f : A -> exn + Z) (items : list A) l :
  keyed f items = inr l ->
  l.*2 = items /\ Forall (fun x => f x.2 = inr x.1) l.
Proof.
  revert l. induction items as [|x items IH]; intros l; simpl.
  - intros [= <-]. by split.
  - destruct (f x) as [e|k] eqn:Ek; [done|].
    destruct (keyed f items) as [e|l'] eqn:El; [done|].
    intros [= <-]. destruct (IH l' eq_refl) as [<- Hall].
    split; [done|]. by constructor.
Qed.

Lemma insert_keyed_Forall (P : Z * A -> Prop) x l :
  P x -> Forall P l -> Forall P (insert_keyed x l).
Proof.
  intros Hx. induction 1 as [|y l Hy Hl IH]; simpl.
  - by repeat constructor.
  - destruct (x.1 <=? y.1); repeat constructor; done.
Qed.

Lemma sort_keyed_Forall (P : Z * A -> Prop) l :
  Forall P l -> Forall P (sort_keyed l).
Proof.
  induction 1; simpl; [constructor|]. by apply insert_keyed_Forall.
Qed.

Lemma insert_keyed_sorted x l :
  StronglySorted by_key l -> StronglySorted by_key (insert_keyed x l).
Proof.
  induction 1 as [|y l Hl IH Hy]; simpl.
  - by repeat constructor.
  - destruct (Z.leb_spec x.1 y.1).
    + constructor; [by constructor|]. constructor; [done|].
      eapply Forall_impl; [exact Hy|]. unfold by_key. intros z ?. lia.
    + constructor; [done|]. apply insert_keyed_Forall; [|done].
      unfold by_key. lia.
Qed.

Lemma sort_keyed_sorted l : StronglySorted by_key (sort_keyed l).
Proof.
  induction l; simpl; [constructor|]. by apply insert_keyed_sorted.
Qed.

Lemma sorted_inv (f : A -> exn + Z) (items result : list A) :
  sorted f items = inr result ->
  exists l, result = l.*2 /\ Forall (fun x => f x.2 = inr x.1) l
            /\ StronglySorted by_key l.
Proof.
  unfold sorted. destruct (keyed f items) as [e|l] eqn:El; [done|].
  intros [= <-]. exists (sort_keyed l).
  split; [done|]. split; [|apply sort_keyed_sorted].
  apply sort_keyed_Forall. by apply keyed_keys in El as [_ ?].
Qed.

Lemma insert_keyed_perm x l : insert_keyed x l ≡ₚ x :: l.
Proof.
  induction l as [|y l IH]; simpl; [done|].
  destruct (x.1 <=? y.1); [done|]. rewrite IH. apply Permutation_swap.
Qed.

Lemma sort_keyed_perm l : sort_keyed l ≡ₚ l.
Proof.
  induction l as [|x l IH]; simpl; [done|].
  by rewrite insert_keyed_perm, IH.
Qed.

(** [sorted] rearranges its list, and every key was computed. *)
Lemma sorted_perm (f : A -> exn + Z) (items result : list A) :
  sorted f items = inr result ->
  result ≡ₚ items /\ Forall (fun x => exists k, f x = inr k) result.
Proof.
  unfold sorted. destruct (keyed f items) as [e|l] eqn:El; [done|].
  intros [= <-]. apply keyed_keys in El as [<- Hall]. split.
  - by rewrite sort_keyed_perm.
  - apply Forall_fmap.
    eapply Forall_impl; [apply sort_keyed_Forall; exact Hall|].
    intros x Hx. by exists x.1.
Qed.

End SortedFacts.

(** * The loop *)

(** ** Unfolding one iteration and the [while] *)

Lemma tick_poll_raise s t e s' :
  poll_phase s = (t, Raise e s') -> tick s = (t, Raise e s').
Proof. intros E. unfold tick. by rewrite (bind_raise _ _ _ _ _ _ E). Qed.

Lemma tick_skip s t s' :
  poll_phase s = (t, Ok tt s') -> skip_submission s' = true ->
  tick s = (t, Ok tt s').
Proof.
  intros E Hskip. unfold tick. rewrite (bind_ok _ _ _ _ _ _ E).
  rewrite bind_run. simpl. rewrite Hskip. simpl. by rewrite app_nil_r.
Qed.

Lemma tick_submit s t s' :
  poll_phase s = (t, Ok tt s') -> skip_submission s' = false ->
  tick s =
  (t ++ ((submit_phase;; tell (Sleep TICK_SECONDS);;
          call_ (sleep TICK_SECONDS)) s').1,
   ((submit_phase;; tell (Sleep TICK_SECONDS);;
     call_ (sleep TICK_SECONDS)) s').2).
Proof.
  intros E Hskip. unfold tick. rewrite (bind_ok _ _ _ _ _ _ E).
  rewrite (bind_run get_state). simpl. rewrite Hskip.
  by destruct ((submit_phase;; _) s').
Qed.

Lemma tick_split s : tick s = (interrupt_phase;; rest_of_tick) s.
Proof. unfold tick, poll_phase, rest_of_tick. by rewrite !bind_assoc. Qed.

Lemma while_loop_exit fuel s :
  loop_condition s = false -> while_loop fuel s = Some ([], Ok tt s).
Proof. intros E. destruct fuel; simpl; by rewrite E. Qed.

Lemma while_loop_enter fuel s :
  loop_condition s = true ->
  while_loop (S fuel) s =
  match tick s with
  | (t, Ok _ s') =>
      match while_loop fuel s' with
      | Some (t', r) => Some (t ++ t', r)
      | None => None
      end
  | (t, Raise e s') => Some (t, Raise e s')
  end.
Proof. intros E. simpl. by rewrite E. Qed.

Lemma while_loop_raise fuel s t e s' :
  loop_condition s = true -> tick s = (t, Raise e s') ->
  while_loop (S fuel) s = Some (t, Raise e s').
Proof. intros Hc E. by rewrite while_loop_enter, E. Qed.

(** ** One submission *)

Lemma submit_step_priority_raises step e s :
  _get_step_priority int cfg pipeline_context step = inl e ->
  submit_step step s
  = ([Yield (submitting_event step); Yield (fatal_event e)], Raise e s).
Proof.
  intros E. unfold submit_step, try_except.
  rewrite bind_run. simpl. rewrite bind_run, E. reflexivity.
Qed.

Lemma submit_step_refused step p e w' s :
  _get_step_priority int cfg pipeline_context step = inr p ->
  step_execution_fn step
    (default (task_default_queue cfg) (tags step !! DAGSTER_CELERY_QUEUE_TAG))
    p (world s) = (inl e, w') ->
  submit_step step s
  = ([Yield (submitting_event step);
      Submit step
        (default (task_default_queue cfg)
           (tags step !! DAGSTER_CELERY_QUEUE_TAG)) p;
      Yield (fatal_event e)], Raise e (with_world w' s)).
Proof.
  intros Ep Ex. unfold submit_step, try_except.
  rewrite bind_run. simpl. rewrite bind_run, Ep. simpl.
  rewrite bind_run. simpl. rewrite bind_run. unfold call. rewrite Ex.
  reflexivity.
Qed.

Lemma for_each_raise_at {A} (body : A -> M unit) pre x rest s t1 s1 t2 e s2 :
  for_each body pre s = (t1, Ok tt s1) ->
  body x s1 = (t2, Raise e s2) ->
  for_each body (pre ++ x :: rest) s = (t1 ++ t2, Raise e s2).
Proof.
  intros E1 E2. rewrite for_each_app, (bind_ok _ _ _ _ _ _ E1). simpl.
  by rewrite (bind_raise _ _ _ _ _ _ E2).
Qed.

Lemma tick_submit_raise s t1 s1 pre step rest w2 t2 s3 t3 e s4 :
  poll_phase s = (t1, Ok tt s1) ->
  skip_submission s1 = false ->
  get_steps_to_execute (priority_for_step int cfg pipeline_context) (world s1)
  = (inr (pre ++ step :: rest), w2) ->
  for_each submit_step pre (with_world w2 s1) = (t2, Ok tt s3) ->
  submit_step step s3 = (t3, Raise e s4) ->
  tick s = (t1 ++ t2 ++ t3, Raise e s4).
Proof.
  intros Ep Hskip Eg Epre Estep.
  rewrite (tick_submit _ _ _ Ep Hskip).
  assert (submit_phase s1 = (t2 ++ t3, Raise e s4)) as Es.
  { unfold submit_phase. rewrite bind_run. unfold call. rewrite Eg.
    simpl. rewrite ret_bind.
    by rewrite (for_each_raise_at _ _ _ _ _ _ _ _ _ _ Epre Estep). }
  by rewrite (bind_raise _ _ _ _ _ _ Es).
Qed.

(** ** What the phases emit, and what they leave alone *)

Lemma scan_emits (P : Action -> Prop) acc items :
  (forall ev, P (Yield ev)) -> (forall k ev, P (HandleEvent k ev)) ->
  emits P (scan acc items).
Proof.
  intros HY HH. revert acc.
  induction items as [|item items IH]; intros acc; simpl.
  - apply emits_ret.
  - apply emits_bind; [|intros ?; apply IH].
    unfold scan_one, fetch. emits_auto; auto.
Qed.

(** Polling submits nothing and does not sleep. *)
Lemma scan_pop_plan_emits (P : Action -> Prop) :
  (forall ev, P (Yield ev)) -> (forall k ev, P (HandleEvent k ev)) ->
  (forall k, P (VerifyComplete k)) ->
  emits P (results_to_pop ← scan_phase;
           pop_phase results_to_pop;;
           plan_events_phase).
Proof.
  intros HY HH HV.
  unfold scan_phase, pop_phase, plan_events_phase.
  emits_auto; auto. by apply scan_emits.
Qed.

Lemma poll_phase_emits (P : Action -> Prop) :
  (forall ev, P (Yield ev)) -> P MarkInterrupted ->
  (forall h, P (Revoke h)) -> (forall k ev, P (HandleEvent k ev)) ->
  (forall k, P (VerifyComplete k)) ->
  emits P poll_phase.
Proof.
  intros HY HM HR HH HV. unfold poll_phase.
  apply emits_bind; [|intros _; by apply scan_pop_plan_emits].
  unfold interrupt_phase. emits_auto; auto.
Qed.

#[local] Instance same_flags_preorder : PreOrder same_flags.
Proof.
  split.
  - by intros s.
  - intros s1 s2 s3 [? ?] [? ?]. split; congruence.
Qed.

Lemma same_flags_world s w : same_flags s (with_world w s).
Proof. by split. Qed.

Lemma submission_keeps_flags :
  relates same_flags
    (submit_phase;; tell (Sleep TICK_SECONDS);; call_ (sleep TICK_SECONDS)).
Proof.
  pose proof same_flags_world.
  unfold submit_phase, submit_step.
  relates_auto. by intros s.
Qed.

(** ** The claims about one iteration and about the [while] *)

(** C1, as the code has it.  The [while] is left exactly when no handle
    is outstanding and the tracker reports complete or the loop is
    draining: a state with the condition false is returned untouched,
    without any action, and a state with the condition true goes through
    [tick] once more. *)
Theorem loop_exit_condition (fuel : nat) s :
  (loop_condition s = false
   <-> (is_complete (world s) = true \/ stopping s = true)
       /\ step_results s = [])
  /\ (if loop_condition s
      then while_loop (S fuel) s =
           match tick s with
           | (t, Ok _ s') =>
               match while_loop fuel s' with
               | Some (t', r) => Some (t ++ t', r)
               | None => None
               end
           | (t, Raise e s') => Some (t, Raise e s')
           end
      else while_loop fuel s = Some ([], Ok tt s)).
Proof.
  split.
  - unfold loop_condition.
    destruct (is_complete (world s)), (stopping s), (step_results s);
      simpl; split; try done; try (intros [[?|?] ?]; done); auto.
  - destruct (loop_condition s) eqn:E.
    + by apply while_loop_enter.
    + by apply while_loop_exit.
Qed.

(** C2.  In an iteration that ends with [stopping] set or with a Step
    Error on record, [step_execution_fn] was not called. *)
Theorem no_submission_when_draining_or_failed s :
  stopping (state_of (tick s).2) = true
  \/ step_errors (state_of (tick s).2) <> [] ->
  Forall (fun a => is_submit a = false) (tick s).1.
Proof.
  intros Hflags.
  assert (emits (fun a => is_submit a = false) poll_phase) as Hpoll
    by (by apply poll_phase_emits).
  specialize (Hpoll s).
  destruct (poll_phase s) as [t1 [[] s1|e s1]] eqn:Ep.
  - destruct (skip_submission s1) eqn:Hskip.
    + by rewrite (tick_skip _ _ _ Ep Hskip).
    + exfalso. rewrite (tick_submit _ _ _ Ep Hskip) in Hflags.
      simpl in Hflags.
      destruct (submission_keeps_flags s1) as [Hst Her].
      rewrite Hst, Her in Hflags. unfold skip_submission in Hskip.
      apply orb_false_iff in Hskip as [Hs He].
      destruct Hflags as [?|?]; [congruence|].
      by destruct (step_errors s1).
  - by rewrite (tick_poll_raise _ _ _ _ Ep).
Qed.

(** C5.  When [step_execution_fn] raises [e] for a ready step, the
    iteration yields the fatal engine event for [e] right after the call
    and raises [e]; the steps after it are not submitted, and the [while]
    ends there with the same exception. *)
Theorem submission_error_is_fatal
    (fuel : nat) s t1 s1 pre step rest w2 t2 s3 p e w4 :
  loop_condition s = true ->
  poll_phase s = (t1, Ok tt s1) ->
  skip_submission s1 = false ->
  get_steps_to_execute (priority_for_step int cfg pipeline_context) (world s1)
  = (inr (pre ++ step :: rest), w2) ->
  for_each submit_step pre (with_world w2 s1) = (t2, Ok tt s3) ->
  _get_step_priority int cfg pipeline_context step = inr p ->
  step_execution_fn step
    (default (task_default_queue cfg) (tags step !! DAGSTER_CELERY_QUEUE_TAG))
    p (world s3) = (inl e, w4) ->
  let t3 := [Yield (submitting_event step);
             Submit step
               (default (task_default_queue cfg)
                  (tags step !! DAGSTER_CELERY_QUEUE_TAG)) p;
             Yield (fatal_event e)] in
  tick s = (t1 ++ t2 ++ t3, Raise e (with_world w4 s3))
  /\ while_loop (S fuel) s = Some (t1 ++ t2 ++ t3, Raise e (with_world w4 s3)).
Proof.
  intros Hc Ep Hskip Eg Epre Epr Ex t3.
  assert (tick s = (t1 ++ t2 ++ t3, Raise e (with_world w4 s3))) as Et.
  { eapply tick_submit_raise; eauto. by apply submit_step_refused. }
  split; [done|]. by apply while_loop_raise.
Qed.

(** C10.  A step-level priority tag that cannot be parsed as an integer
    ([int] raises its [ValueError] on it) makes the conversion raise, with
    no default taken: [_get_step_priority] and the sort key both fail with
    that [ValueError], whatever the run-level tag is.  When such a step is
    among the ready steps of an iteration, and the steps before it have
    been submitted, the exception is caught by the handler of the [try]:
    the fatal engine event is yielded and the exception raised again,
    before any call of [step_execution_fn] for this step or for the steps
    after it.  The iteration ends there with that exception, and so do the
    [while] and the generator: no further iteration is run and the
    aggregate error is not reached. *)
Theorem unparseable_step_priority_is_fatal
    (fuel : nat) s t1 s1 pre step rest w2 t2 s3 v msg :
  tags step !! DAGSTER_CELERY_STEP_PRIORITY_TAG = Some v ->
  int v = inl msg ->
  loop_condition s = true ->
  poll_phase s = (t1, Ok tt s1) ->
  skip_submission s1 = false ->
  get_steps_to_execute (priority_for_step int cfg pipeline_context) (world s1)
  = (inr (pre ++ step :: rest), w2) ->
  for_each submit_step pre (with_world w2 s1) = (t2, Ok tt s3) ->
  let e := ValueError msg in
  let t3 := [Yield (submitting_event step); Yield (fatal_event e)] in
  step_priority_tag int cfg step = inl e
  /\ _get_step_priority int cfg pipeline_context step = inl e
  /\ priority_for_step int cfg pipeline_context step = inl e
  /\ submit_step step s3 = (t3, Raise e s3)
  /\ tick s = (t1 ++ t2 ++ t3, Raise e s3)
  /\ while_loop (S fuel) s = Some (t1 ++ t2 ++ t3, Raise e s3)
  /\ forall (w : W) t0,
       prelude (initial_state w) = (t0, Ok tt s) ->
       core_celery_execution_loop (S fuel) w
       = Some (t0 ++ t1 ++ t2 ++ t3, Raise e s3).
Proof.
  intros Et Ev Hc Ep Hskip Eg Epre e t3.
  assert (step_priority_tag int cfg step = inl e) as E1
    by (unfold step_priority_tag, int_of_str; by rewrite Et, Ev).
  assert (_get_step_priority int cfg pipeline_context step = inl e) as E2.
  { unfold _get_step_priority.
    destruct (_get_run_priority_total pipeline_context) as [n ->].
    by rewrite E1. }
  assert (submit_step step s3 = (t3, Raise e s3)) as E3
    by (by apply submit_step_priority_raises).
  assert (tick s = (t1 ++ t2 ++ t3, Raise e s3)) as E4
    by (eapply tick_submit_raise; eauto).
  assert (while_loop (S fuel) s = Some (t1 ++ t2 ++ t3, Raise e s3)) as E5
    by (by apply while_loop_raise).
  split; [done|]. split; [done|].
  split; [unfold priority_for_step; by rewrite E1|].
  split; [done|]. split; [done|]. split; [done|].
  intros w t0 E0. unfold core_celery_execution_loop. by rewrite E0, E5.
Qed.

(** ** Interrupts *)

Lemma revoked_app t t' : revoked (t ++ t') = revoked t ++ revoked t'.
Proof. apply omap_app. Qed.

Lemma revoked_none t :
  Forall (fun a => is_revoke a = false) t -> revoked t = [].
Proof.
  induction 1 as [|a t Ha _ IH]; [done|].
  destruct a; try done; simpl in Ha; try discriminate; exact IH.
Qed.

Lemma revoke_each_run (handles : list Handle) s :
  for_each (fun result => tell (Revoke result);; call_ (revoke result))
    handles s
  = (Revoke <$> handles,
     Ok tt (with_world (revoke_all handles (world s)) s)).
Proof.
  revert s. induction handles as [|h handles IH]; intros s; simpl.
  - by destruct s.
  - rewrite bind_run. simpl. rewrite IH. by destruct s.
Qed.

Lemma interrupt_phase_run s :
  interrupt_phase s =
  let '(interrupt, w) := check_for_interrupts (world s) in
  if interrupt then
    ([Yield (engine_event None interrupted_message
               (interrupted (step_results s).*1));
      MarkInterrupted] ++ (Revoke <$> (step_results s).*2),
     Ok tt {| world := revoke_all (step_results s).*2 (mark_interrupted w);
              step_results := step_results s;
              step_errors := step_errors s;
              stopping := true |})
  else ([], Ok tt (with_world w s)).
Proof.
  unfold interrupt_phase. rewrite bind_run. unfold call.
  destruct (check_for_interrupts (world s)) as [[] w]; [|done].
  simpl. repeat (rewrite bind_run; simpl).
  rewrite revoke_each_run. reflexivity.
Qed.

Lemma revoked_fmap (handles : list Handle) :
  revoked (Revoke <$> handles) = handles.
Proof. induction handles as [|h l IH]; [done|]. simpl. by f_equal. Qed.

(** C7, as the code has it.  The handles that receive a revoke call in
    an iteration are all the handles outstanding when it starts if the
    interrupt poll of that iteration answers true, and none otherwise;
    whether the loop is already draining plays no part. *)
Theorem revoke_on_every_detected_interrupt s :
  revoked (tick s).1
  = if (check_for_interrupts (world s)).1 then (step_results s).*2 else [].
Proof.
  assert (forall t0 (r0 : Res unit),
             interrupt_phase s = (t0, r0) ->
             exists s0 t', r0 = Ok tt s0 /\ (tick s).1 = t0 ++ t'
               /\ revoked t' = []) as Hsplit.
  { intros t0 r0 E0.
    assert (exists s0, r0 = Ok tt s0) as [s0 ->].
    { rewrite interrupt_phase_run in E0.
      destruct (check_for_interrupts (world s)) as [[] w];
        injection E0 as <- <-; eauto. }
    pose proof (scan_pop_plan_emits (fun a => is_revoke a = false)
                  ltac:(done) ltac:(done) ltac:(done) s0) as Hrest.
    assert (poll_phase s
            = (t0 ++ ((results_to_pop ← scan_phase;
                       pop_phase results_to_pop;; plan_events_phase) s0).1,
               ((results_to_pop ← scan_phase;
                 pop_phase results_to_pop;; plan_events_phase) s0).2))
      as Ep by (unfold poll_phase; by rewrite (bind_ok _ _ _ _ _ _ E0)).
    destruct ((results_to_pop ← scan_phase;
               pop_phase results_to_pop;; plan_events_phase) s0)
      as [t1 [[] s1|e s1]]; simpl in *.
    - destruct (skip_submission s1) eqn:Hskip.
      + rewrite (tick_skip _ _ _ Ep Hskip). simpl.
        exists s0, t1. by rewrite revoked_none.
      + rewrite (tick_submit _ _ _ Ep Hskip). simpl.
        assert (emits (fun a => is_revoke a = false)
                  (submit_phase;; tell (Sleep TICK_SECONDS);;
                   call_ (sleep TICK_SECONDS))) as Hsub
          by (unfold submit_phase, submit_step;
              emits_auto; done).
        specialize (Hsub s1).
        eexists s0, (t1 ++ _). rewrite app_assoc. split; [done|].
        split; [done|]. by rewrite revoked_app, !revoked_none.
    - rewrite (tick_poll_raise _ _ _ _ Ep). simpl.
      exists s0, t1. by rewrite revoked_none. }
  pose proof (interrupt_phase_run s) as E0.
  destruct (check_for_interrupts (world s)) as [[] w]; simpl in *.
  - destruct (Hsplit _ _ E0) as (s0 & t' & _ & -> & Hnone).
    rewrite !revoked_app, Hnone, app_nil_r. simpl. apply revoked_fmap.
  - destruct (Hsplit _ _ E0) as (s0 & t' & _ & -> & Hnone). by simpl.
Qed.

(** ** The Step Errors stay on record *)

Lemma dict_set_keys {V} k (v : V) (d : list (string * V)) k' :
  k' ∈ d.*1 -> k' ∈ (dict_set k v d).*1.
Proof.
  induction d as [|[k0 v0] d IH]; simpl.
  - by intros ?%elem_of_nil.
  - destruct (String.eqb_spec k k0) as [->|]; simpl; [done|].
    intros [->|Hin]%elem_of_cons; [by left|]. right. by apply IH.
Qed.

#[local] Instance errors_kept_preorder : PreOrder errors_kept.
Proof.
  split.
  - by intros s k.
  - intros s1 s2 s3 H12 H23 k Hk. by apply H23, H12.
Qed.

Lemma errors_kept_world s w : errors_kept s (with_world w s).
Proof. by intros k. Qed.

Ltac errors_kept_auto :=
  repeat first
    [ relates_step | branch_step
    | (intros ? ? ?; simpl; first [assumption | by apply dict_set_keys]) ].

Lemma scan_keeps_errors acc items : relates errors_kept (scan acc items).
Proof.
  pose proof errors_kept_world.
  revert acc. induction items as [|item items IH]; intros acc; simpl.
  - apply relates_ret, _.
  - apply relates_bind; [apply _| |intros ?; apply IH].
    unfold scan_one, fetch. errors_kept_auto.
Qed.

Lemma tick_keeps_errors : relates errors_kept tick.
Proof.
  pose proof errors_kept_world.
  unfold tick, poll_phase, interrupt_phase, scan_phase, pop_phase,
    plan_events_phase, submit_phase, submit_step.
  errors_kept_auto. apply scan_keeps_errors.
Qed.

Lemma while_loop_keeps_errors fuel s t r :
  while_loop fuel s = Some (t, r) -> errors_kept s (state_of r).
Proof.
  revert s t r. induction fuel as [|fuel IH]; intros s t r; simpl.
  - destruct (loop_condition s); [done|]. by intros [= <- <-].
  - destruct (loop_condition s); [|by intros [= <- <-]].
    pose proof (tick_keeps_errors s) as Htick.
    destruct (tick s) as [t1 [[] s1|e s1]]; simpl in Htick.
    + destruct (while_loop fuel s1) as [[t2 r2]|] eqn:E2; [|done].
      intros [= <- <-]. etrans; [exact Htick|]. by eapply IH.
    + by intros [= <- <-].
Qed.

(** ** After the [while] *)

Lemma raise_step_errors_run s :
  raise_step_errors s
  = ([], if dict_truthy (step_errors s)
         then Raise (aggregate_error (step_errors s)) s
         else Ok tt s).
Proof.
  unfold raise_step_errors. rewrite bind_run. simpl.
  by destruct (dict_truthy (step_errors s)).
Qed.

(** C4.  When the [while] is left normally, the generator raises one
    [DagsterSubprocessError] if the dictionary of Step Errors is not
    empty, and returns otherwise.  The message of the exception has one
    line "[key]: error" for every entry of the dictionary, and its
    [subprocess_error_infos] hold every recorded error.  A key that is in
    the dictionary at any point of the run is still there when the [while]
    is left. *)
Theorem aggregate_error_after_loop (fuel : nat) (w : W) t0 s0 t1 s1 :
  prelude (initial_state w) = (t0, Ok tt s0) ->
  while_loop fuel s0 = Some (t1, Ok tt s1) ->
  core_celery_execution_loop fuel w
  = Some (t0 ++ t1,
          match step_errors s1 with
          | [] => Ok tt s1
          | _ :: _ => Raise (aggregate_error (step_errors s1)) s1
          end)
  /\ exists lines infos,
       aggregate_error (step_errors s1)
       = DagsterSubprocessError
           ("During celery execution errors occurred in workers:"
            +:+ newline +:+ String.concat newline lines) infos
       /\ List.length lines = List.length (step_errors s1)
       /\ (forall k err,
             (k, err) ∈ step_errors s1 ->
             ("[" +:+ k +:+ "]: " +:+ to_string err) ∈ lines
             /\ err ∈ infos)
       /\ forall fuel' s t k,
            while_loop fuel' s = Some (t, Ok tt s1) ->
            k ∈ (step_errors s).*1 -> k ∈ (step_errors s1).*1.
Proof.
  intros Ep Ew. split.
  - unfold core_celery_execution_loop. rewrite Ep, Ew.
    rewrite raise_step_errors_run, app_nil_r.
    by destruct (step_errors s1).
  - exists (error_line <$> step_errors s1), (step_errors s1).*2.
    split; [done|]. split; [by rewrite length_fmap|]. split.
    + intros k err Hin. split.
      * by apply (list_elem_of_fmap_2 error_line) in Hin.
      * by apply (list_elem_of_fmap_2 snd) in Hin.
    + intros fuel' s t k Hrun. by apply (while_loop_keeps_errors _ _ _ _ Hrun).
Qed.

(** ** Fetching the results *)

Lemma dict_get_set_eq {V} k (v : V) d : dict_get k (dict_set k v d) = Some v.
Proof.
  induction d as [|[k' v'] d IH]; simpl.
  - by rewrite String.eqb_refl.
  - destruct (String.eqb k k') eqn:E; simpl.
    + by rewrite String.eqb_refl.
    + by rewrite E.
Qed.

Lemma dict_get_set_ne {V} k k' (v : V) d :
  k <> k' -> dict_get k' (dict_set k v d) = dict_get k' d.
Proof.
  intros Hne. induction d as [|[k0 v0] d IH]; simpl.
  - destruct (String.eqb_spec k' k); [congruence|done].
  - destruct (String.eqb_spec k k0) as [->|]; simpl.
    + by destruct (String.eqb_spec k' k0); [congruence|].
    + by rewrite IH.
Qed.

Lemma dict_set_length {V} k (v : V) d :
  List.length (dict_set k v d)
  = if dict_in k d then List.length d else S (List.length d).
Proof.
  unfold dict_in. induction d as [|[k0 v0] d IH]; simpl; [done|].
  destruct (String.eqb k k0); simpl; [done|].
  rewrite IH. by destruct (existsb _ _).
Qed.

Lemma scan_one_fetch_error acc k result s w1 w2 e :
  ready result (world s) = (true, w1) ->
  get result w1 = (inl e, w2) ->
  is_revoked e = false ->
  scan_one acc (k, result) s
  = ([], Ok (acc ++ [k]) (record_error k e w2 s)).
Proof.
  intros Er Eg Hrev. unfold scan_one, fetch.
  rewrite bind_run. unfold call. rewrite Er. simpl.
  rewrite bind_run. simpl. rewrite bind_run. simpl. rewrite Eg.
  by destruct e.
Qed.

Lemma scan_app acc items items' s :
  scan acc (items ++ items') s
  = (acc' ← scan acc items; scan acc' items') s.
Proof.
  revert acc s. induction items as [|item items IH]; intros acc s; simpl.
  - by rewrite ret_bind.
  - rewrite !bind_run.
    destruct (scan_one acc item s) as [t [acc1 s1|e s1]];
      [|done].
    rewrite IH, bind_run.
    destruct (scan acc1 items s1) as [t1 [acc2 s2|e s2]];
      [|done].
    destruct (scan acc2 items' s2) as [t2 r2].
    by rewrite app_assoc.
Qed.

(** The events fed to the tracker during the scan come from the items
    scanned, each under the key of its item. *)
Lemma scan_handle_event_keys acc items :
  emits (fun a => match a with
                  | HandleEvent k _ => k ∈ items.*1
                  | _ => True
                  end)
    (scan acc items).
Proof.
  revert acc. induction items as [|[k result] items IH]; intros acc; simpl.
  - apply emits_ret.
  - apply emits_bind.
    + unfold scan_one, fetch. emits_auto; try done. simpl. by left.
    + intros acc' s. eapply Forall_impl; [apply IH|].
      intros [] ?; try done. simpl. by right.
Qed.

Lemma feed_events_run step_key step_events s :
  for_each (fun step_event =>
              let event := deserialize_json_to_dagster_namedtuple step_event in
              tell (Yield event);;
              tell (HandleEvent step_key event);;
              call_ (handle_event event))
    step_events s
  = (event_actions step_key step_events,
     Ok tt (with_world (handle_events step_events (world s)) s)).
Proof.
  revert s. induction step_events as [|ev evs IH]; intros s.
  - by destruct s.
  - cbn [for_each].
    erewrite bind_ok; [|reflexivity]. rewrite IH. by destruct s.
Qed.

Lemma call_run {A} (op : W -> A * W) s a w :
  op (world s) = (a, w) -> call op s = ([], Ok a (with_world w s)).
Proof. intros E. unfold call. by rewrite E. Qed.

Lemma scan_one_ready results_to_pop step_key result s w1 t step_events s2 :
  ready result (world s) = (true, w1) ->
  fetch step_key result (with_world w1 s) = (t, Ok step_events s2) ->
  scan_one results_to_pop (step_key, result) s
  = (t ++ event_actions step_key step_events,
     Ok (results_to_pop ++ [step_key])
       (with_world (handle_events step_events (world s2)) s2)).
Proof.
  intros Er Ef. unfold scan_one.
  rewrite (bind_ok _ _ _ _ _ _ (call_run _ _ _ _ Er)). cbn [fst snd app].
  rewrite (bind_ok _ _ _ _ _ _ Ef).
  rewrite (bind_ok _ _ _ _ _ _ (feed_events_run _ _ _)).
  cbn. by rewrite app_nil_r.
Qed.

(** Fetching a result never raises for a step of the plan. *)
Lemma fetch_ok k result s :
  is_Some (step_dict_by_key execution_plan !! k) ->
  exists t step_events s', fetch k result s = (t, Ok step_events s').
Proof.
  intros [step Hk]. unfold fetch. rewrite bind_run. unfold call.
  destruct (get result (world s)) as [[e|step_events] w]; [|by eexists _, _, _].
  destruct e; try (by eexists _, _, _).
  cbn beta iota. unfold get_step_by_key. rewrite Hk. by eexists _, _, _.
Qed.

Lemma scan_one_ok acc k result s :
  is_Some (step_dict_by_key execution_plan !! k) ->
  exists t acc' s', scan_one acc (k, result) s = (t, Ok acc' s').
Proof.
  intros Hk. destruct (ready result (world s)) as [[] w1] eqn:Er.
  - destruct (fetch_ok k result (with_world w1 s) Hk)
      as (t & step_events & s2 & Ef).
    rewrite (scan_one_ready _ _ _ _ _ _ _ _ Er Ef). by eexists _, _, _.
  - unfold scan_one. rewrite (bind_ok _ _ _ _ _ _ (call_run _ _ _ _ Er)).
    by eexists _, _, _.
Qed.

(** The scan never raises when every key scanned is in the plan. *)
Lemma scan_ok acc items s :
  Forall (fun item => is_Some (step_dict_by_key execution_plan !! item.1))
    items ->
  exists t acc' s', scan acc items s = (t, Ok acc' s').
Proof.
  intros Hitems. revert acc s.
  induction Hitems as [|[k result] items Hk _ IH]; intros acc s.
  - by eexists _, _, _.
  - cbn [scan].
    destruct (scan_one_ok acc k result s Hk) as (t & acc1 & s1 & E1).
    rewrite (bind_ok _ _ _ _ _ _ E1).
    destruct (IH acc1 s1) as (t2 & acc2 & s2 & E2). rewrite E2.
    by eexists _, _, _.
Qed.

(** What [sorted] hands to the scan: the entries of [step_results] in
    another order, every key of them in the plan. *)
Lemma sorted_step_results (d items : list (string * Handle)) :
  sorted (fun x => priority_for_key int cfg pipeline_context execution_plan
                     x.1) d = inr items ->
  items ≡ₚ d
  /\ Forall (fun item => is_Some (step_dict_by_key execution_plan !! item.1))
       items.
Proof.
  intros [Hperm Hkeys]%sorted_perm. split; [done|].
  eapply Forall_impl; [exact Hkeys|]. intros [k result] [p Hp].
  cbn [fst] in *. unfold priority_for_key, get_step_by_key in Hp.
  destruct (step_dict_by_key execution_plan !! k); [by eexists|done].
Qed.

Lemma scan_phase_run s items :
  sorted (fun x => priority_for_key int cfg pipeline_context execution_plan
                     x.1) (step_results s) = inr items ->
  scan_phase s = scan [] items s.
Proof.
  intros E. unfold scan_phase. rewrite bind_run. cbn [get_state].
  rewrite E. cbn [of_sum]. rewrite ret_bind. cbn [app].
  by destruct (scan [] items s).
Qed.

Lemma rest_of_tick_split s :
  rest_of_tick s = (results_to_pop ← scan_phase; after_scan results_to_pop) s.
Proof. unfold rest_of_tick, after_scan. by rewrite !bind_assoc. Qed.

#[local] Instance same_error_preorder k : PreOrder (same_error k).
Proof.
  split.
  - by intros s.
  - intros s1 s2 s3 H12 H23. unfold same_error in *. congruence.
Qed.

Lemma same_error_world k s w : same_error k s (with_world w s).
Proof. done. Qed.

Ltac same_error_auto :=
  repeat first
    [ relates_step | branch_step
    | (intros ?; unfold same_error; cbn;
       first [done | by apply dict_get_set_ne]) ].

(** The scan writes into [step_errors] under the keys it scans only. *)
Lemma scan_keeps_other_errors k acc items :
  k ∉ items.*1 -> relates (same_error k) (scan acc items).
Proof.
  pose proof (same_error_world k).
  revert acc. induction items as [|[k' result] items IH]; intros acc Hk.
  - apply relates_ret, _.
  - apply not_elem_of_cons in Hk as [Hne Hk]. cbn [fst] in Hne.
    cbn [scan].
    apply relates_bind; [apply _| |intros ?; by apply IH].
    unfold scan_one, fetch. same_error_auto.
Qed.

(** What follows the scan in an iteration leaves [step_errors] alone. *)
Lemma after_scan_keeps_errors k results_to_pop :
  relates (same_error k) (after_scan results_to_pop).
Proof.
  pose proof (same_error_world k).
  unfold after_scan, pop_phase, plan_events_phase, submit_phase, submit_step.
  same_error_auto.
Qed.

Lemma after_scan_feeds_nothing results_to_pop :
  emits (fun a => match a with HandleEvent _ _ => False | _ => True end)
    (after_scan results_to_pop).
Proof.
  unfold after_scan, pop_phase, plan_events_phase, submit_phase, submit_step.
  emits_auto; done.
Qed.

Lemma interrupt_phase_feeds_nothing :
  emits (fun a => match a with HandleEvent _ _ => False | _ => True end)
    interrupt_phase.
Proof. unfold interrupt_phase. emits_auto; done. Qed.

Lemma interrupt_phase_keeps_results s t s' :
  interrupt_phase s = (t, Ok tt s') -> step_results s' = step_results s.
Proof.
  rewrite interrupt_phase_run.
  destruct (check_for_interrupts (world s)) as [[] w]; by intros [= _ <-].
Qed.

(** C6.  In an iteration, the scan of the outstanding handles (in the
    order [sorted] gives them) reaches the handle of step [k], finds it
    ready, and its fetch raises an exception [e] that is not a
    revocation.  Then this turn of the scan performs no action (no event
    is yielded or fed to the tracker) and does not raise: it stores the
    error info of [e] under [k] in [step_errors], leaving the other
    entries as they were, and appends [k] to [results_to_pop].  The scan
    goes on with the remaining handles and ends normally, so that the
    iteration continues with what follows the scan.  When the iteration
    ends, normally or not, the entry of [k] in [step_errors] is still the
    error info of [e], and in the whole iteration no event was fed to the
    tracker for [k]. *)
Theorem fetch_failure_is_recorded
    s t0 s0 pre k result post t1 acc1 s1 w1 w2 e :
  NoDup (step_results s).*1 ->
  interrupt_phase s = (t0, Ok tt s0) ->
  sorted (fun x => priority_for_key int cfg pipeline_context execution_plan
                     x.1) (step_results s0)
  = inr (pre ++ (k, result) :: post) ->
  scan [] pre s0 = (t1, Ok acc1 s1) ->
  ready result (world s1) = (true, w1) ->
  get result w1 = (inl e, w2) ->
  is_revoked e = false ->
  let s2 := record_error k e w2 s1 in
  scan_one acc1 (k, result) s1 = ([], Ok (acc1 ++ [k]) s2)
  /\ dict_get k (step_errors s2)
     = Some (serializable_error_info_from_exc_info e)
  /\ (forall k', k' <> k ->
        dict_get k' (step_errors s2) = dict_get k' (step_errors s1))
  /\ List.length (step_errors s2)
     = (if dict_in k (step_errors s1) then List.length (step_errors s1)
        else S (List.length (step_errors s1)))
  /\ (exists t3 acc3 s3,
        scan (acc1 ++ [k]) post s2 = (t3, Ok acc3 s3)
        /\ scan_phase s0 = (t1 ++ t3, Ok acc3 s3)
        /\ tick s = (t0 ++ (t1 ++ t3) ++ (after_scan acc3 s3).1,
                     (after_scan acc3 s3).2))
  /\ dict_get k (step_errors (state_of (tick s).2))
     = Some (serializable_error_info_from_exc_info e)
  /\ forall event, HandleEvent k event ∉ (tick s).1.
Proof.
  intros Hnd E0 Esort Epre Er Eg Hrev s2.
  pose proof (scan_one_fetch_error acc1 k result s1 w1 w2 e Er Eg Hrev)
    as E1.
  destruct (sorted_step_results _ _ Esort) as [Hperm Hplan].
  assert ((k ∉ pre.*1) /\ (k ∉ post.*1)) as [Hpre Hpost].
  { rewrite (interrupt_phase_keeps_results _ _ _ E0) in Hperm.
    rewrite <- Hperm, fmap_app, fmap_cons in Hnd. cbn [fst] in Hnd.
    apply NoDup_app in Hnd as (_ & Hdisj & Hnd).
    apply NoDup_cons in Hnd as [Hnot _].
    split; [|done]. intros Hin. apply (Hdisj _ Hin). by left. }
  apply Forall_app in Hplan as [_ [_ Hpost_plan]%Forall_cons].
  destruct (scan_ok (acc1 ++ [k]) post s2 Hpost_plan)
    as (t3 & acc3 & s3 & E3).
  assert (scan_phase s0 = (t1 ++ t3, Ok acc3 s3)) as Escan.
  { rewrite (scan_phase_run _ _ Esort), scan_app.
    rewrite (bind_ok _ _ _ _ _ _ Epre). cbn [scan].
    rewrite (bind_ok _ _ _ _ _ _ E1). fold s2. rewrite E3. reflexivity. }
  assert (tick s = (t0 ++ (t1 ++ t3) ++ (after_scan acc3 s3).1,
                    (after_scan acc3 s3).2)) as Etick.
  { rewrite tick_split, (bind_ok _ _ _ _ _ _ E0), rest_of_tick_split.
    by rewrite (bind_ok _ _ _ _ _ _ Escan). }
  split; [done|]. split; [apply dict_get_set_eq|].
  split; [intros k' Hne; by apply dict_get_set_ne|].
  split; [apply dict_set_length|].
  split; [by exists t3, acc3, s3|]. split.
  - rewrite Etick. cbn [snd].
    rewrite (after_scan_keeps_errors k acc3 s3).
    pose proof (scan_keeps_other_errors k (acc1 ++ [k]) post Hpost s2) as H3.
    rewrite E3 in H3. cbn [snd state_of] in H3. rewrite H3.
    apply dict_get_set_eq.
  - intros event Hin. rewrite Etick in Hin. cbn [fst] in Hin.
    apply elem_of_app in Hin as [Hin|Hin].
    { pose proof (interrupt_phase_feeds_nothing s) as H0.
      rewrite E0 in H0.
      by apply (proj1 (Forall_forall _ _) H0) in Hin. }
    apply elem_of_app in Hin as [Hin|Hin].
    + apply elem_of_app in Hin as [Hin|Hin].
      * pose proof (scan_handle_event_keys [] pre s0) as Hk.
        rewrite Epre in Hk.
        by apply (proj1 (Forall_forall _ _) Hk) in Hin.
      * pose proof (scan_handle_event_keys (acc1 ++ [k]) post s2) as Hk.
        rewrite E3 in Hk.
        by apply (proj1 (Forall_forall _ _) Hk) in Hin.
    + by apply (proj1 (Forall_forall _ _)
                  (after_scan_feeds_nothing acc3 s3)) in Hin.
Qed.

(** ** What is sent with a submission *)

Lemma submit_step_sends_priority step s :
  Forall (fun a => match a with
                   | Submit step' _ p =>
                       _get_step_priority int cfg pipeline_context step' = inr p
                   | _ => True
                   end) (submit_step step s).1.
Proof.
  unfold submit_step, try_except.
  rewrite bind_run. simpl. rewrite bind_run.
  destruct (_get_step_priority int cfg pipeline_context step) as [e|p] eqn:Ep;
    simpl; [by repeat constructor|].
  rewrite bind_run. simpl. rewrite bind_run. unfold call.
  destruct (step_execution_fn _ _ _ _) as [[e|h] w'];
    simpl; by repeat constructor.
Qed.

Lemma submit_phase_run s :
  submit_phase s =
  match get_steps_to_execute (priority_for_step int cfg pipeline_context)
          (world s) with
  | (inl e, w) => ([], Raise e (with_world w s))
  | (inr steps, w) => for_each submit_step steps (with_world w s)
  end.
Proof.
  unfold submit_phase. rewrite bind_run. unfold call.
  destruct (get_steps_to_execute _ (world s)) as [[e|steps] w].
  - reflexivity.
  - cbn [of_sum]. rewrite ret_bind.
    by destruct (for_each submit_step steps (with_world w s)).
Qed.

Lemma tick_trace_cases s :
  (Forall (fun a => is_submit a = false) (tick s).1)
  \/ exists t1 s1 steps w2 t3,
       get_steps_to_execute (priority_for_step int cfg pipeline_context)
         (world s1) = (inr steps, w2)
       /\ Forall (fun a => is_submit a = false) t1
       /\ Forall (fun a => is_submit a = false) t3
       /\ (tick s).1
          = t1 ++ (for_each submit_step steps (with_world w2 s1)).1 ++ t3.
Proof.
  assert (emits (fun a => is_submit a = false) poll_phase) as Hpoll
    by (by apply poll_phase_emits).
  specialize (Hpoll s).
  destruct (poll_phase s) as [t1 [[] s1|e s1]] eqn:Ep; simpl in Hpoll.
  - destruct (skip_submission s1) eqn:Hskip.
    + left. by rewrite (tick_skip _ _ _ Ep Hskip).
    + rewrite (tick_submit _ _ _ Ep Hskip). cbn [fst].
      rewrite bind_run, submit_phase_run.
      destruct (get_steps_to_execute _ (world s1)) as [[e|steps] w2] eqn:Eg.
      * left. cbn [fst]. by rewrite app_nil_r.
      * right.
        destruct (for_each submit_step steps (with_world w2 s1))
          as [t2 [[] s2|e s2]] eqn:E2.
        -- exists t1, s1, steps, w2, [Sleep TICK_SECONDS].
           rewrite E2. simpl. repeat split; try done.
           by repeat constructor.
        -- exists t1, s1, steps, w2, []. rewrite E2. simpl.
           rewrite !app_nil_r. by repeat split.
  - left. by rewrite (tick_poll_raise _ _ _ _ Ep).
Qed.

Lemma tick_sends_priority s :
  Forall (fun a => match a with
                   | Submit step _ p =>
                       _get_step_priority int cfg pipeline_context step = inr p
                   | _ => True
                   end) (tick s).1.
Proof.
  assert (forall t, Forall (fun a => is_submit a = false) t ->
            Forall (fun a : Action =>
                      match a with
                      | Submit step _ p =>
                          _get_step_priority int cfg pipeline_context step
                          = inr p
                      | _ => True
                      end) t) as Hweak.
  { intros t Ht. eapply Forall_impl; [exact Ht|]. by intros []. }
  destruct (tick_trace_cases s)
    as [Hnone|(t1 & s1 & steps & w2 & t3 & Eg & H1 & H3 & ->)].
  - by apply Hweak.
  - apply Forall_app; split; [by apply Hweak|].
    apply Forall_app; split; [|by apply Hweak].
    apply (emits_for_each _ submit_step steps). intros step s'.
    apply submit_step_sends_priority.
Qed.

(** * More of the generator *)

(** ** Before the [while] *)

Lemma misused_priority_keys_run keys bad_keys s :
  Forall (fun k => is_Some (step_dict_by_key execution_plan !! k)) keys ->
  misused_priority_keys keys bad_keys s
  = ([], Ok (bad_keys ++ misused_keys keys) s).
Proof.
  intros Hkeys. revert bad_keys.
  induction Hkeys as [|k keys [step Hk] _ IH]; intros bad_keys.
  - simpl. by rewrite app_nil_r.
  - cbn [misused_priority_keys].
    unfold get_step_by_key. rewrite Hk. cbn [of_sum]. rewrite ret_bind.
    fold (priority_misused step).
    unfold misused_keys. cbn [List.filter]. rewrite Hk.
    destruct (priority_misused step); rewrite IH; unfold misused_keys;
      [by rewrite <- app_assoc|done].
Qed.

(** X1.  When every key to execute is in the plan,
    [_warn_on_priority_misuse] logs one warning naming, in plan order,
    exactly the steps that carry [dagster/priority] without
    [dagster-celery/priority], and logs nothing when there is no such
    step; it changes nothing else. *)
Theorem warn_on_priority_misuse_spec s :
  Forall (fun k => is_Some (step_dict_by_key execution_plan !! k))
    (step_keys_to_execute execution_plan) ->
  _warn_on_priority_misuse s
  = (match misused_keys (step_keys_to_execute execution_plan) with
     | [] => []
     | bad_keys => [LogWarn (misuse_warning bad_keys)]
     end, Ok tt s).
Proof.
  intros Hkeys. unfold _warn_on_priority_misuse.
  rewrite (bind_ok _ _ _ _ _ _ (misused_priority_keys_run _ [] s Hkeys)).
  simpl. by destruct (misused_keys _).
Qed.

(** X2.  With steps to execute and artifacts that are not persisted, the
    generator fails the check at once: it raises before any action, and
    the [while] is never entered, whatever the collaborators would do. *)
Theorem in_memory_storage_is_refused (fuel : nat) (w : W) :
  step_keys_to_execute execution_plan <> [] ->
  artifacts_persisted execution_plan = false ->
  exists msg,
    core_celery_execution_loop fuel w
    = Some ([], Raise (CheckError msg) (initial_state w)).
Proof.
  intros Hkeys Hart. eexists. unfold core_celery_execution_loop, prelude.
  rewrite bind_run, Hart.
  destruct (step_keys_to_execute execution_plan); [done|]. reflexivity.
Qed.

(** X3.  With no step to execute and a tracker that is complete from the
    start, the generator ends without a single action, without raising,
    and without consulting the artifacts flag; no iteration is needed. *)
Theorem nothing_to_execute (fuel : nat) (w : W) :
  step_keys_to_execute execution_plan = [] ->
  is_complete w = true ->
  core_celery_execution_loop fuel w = Some ([], Ok tt (initial_state w)).
Proof.
  intros Hkeys Hcomplete.
  assert (prelude (initial_state w) = ([], Ok tt (initial_state w))) as Hp
    by (unfold prelude, _warn_on_priority_misuse; by rewrite Hkeys).
  assert (loop_condition (initial_state w) = false) as Hc
    by (unfold loop_condition; simpl; by rewrite Hcomplete).
  unfold core_celery_execution_loop.
  by rewrite Hp, (while_loop_exit _ _ Hc).
Qed.

(** ** Priorities *)

(** X4.  The sort key of a step is the negated priority sent with its
    task, and the two computations fail on the same steps with the same
    exception, although they read the two tags in opposite orders: the
    run-level tag never makes either fail. *)
Theorem sort_key_is_negated_priority (step : ExecutionStep) :
  (forall k,
      priority_for_step int cfg pipeline_context step = inr k
      <-> _get_step_priority int cfg pipeline_context step = inr (- k))
  /\ (forall e,
        priority_for_step int cfg pipeline_context step = inl e
        <-> _get_step_priority int cfg pipeline_context step = inl e).
Proof.
  unfold priority_for_step, _get_step_priority.
  destruct (_get_run_priority_total pipeline_context) as [r ->].
  destruct (step_priority_tag int cfg step) as [e'|sp]; split; intros x;
    split; intros E; try discriminate E; try exact E;
    injection E as E; f_equal; lia.
Qed.

(** ** The outcomes of a fetch *)

(** X5.  A ready handle whose fetch returns events: each event is
    deserialized, yielded and then fed to the tracker, in the order of the
    result; the step is marked for removal and no Step Error is
    recorded. *)
Theorem fetched_events_are_yielded_then_fed
    results_to_pop step_key result s w1 step_events w2 :
  ready result (world s) = (true, w1) ->
  get result w1 = (inr step_events, w2) ->
  scan_one results_to_pop (step_key, result) s
  = (event_actions step_key step_events,
     Ok (results_to_pop ++ [step_key])
       (with_world (handle_events step_events w2) s)).
Proof.
  intros Er Eg.
  assert (fetch step_key result (with_world w1 s)
          = ([], Ok step_events (with_world w2 s))) as Ef.
  { unfold fetch. rewrite bind_run. unfold call. cbn [world with_world].
    rewrite Eg. reflexivity. }
  by rewrite (scan_one_ready _ _ _ _ _ _ _ _ Er Ef).
Qed.

(** X6.  A ready handle whose fetch raises [TaskRevokedError]: the loop
    yields one engine event for the step, with the end marker, and that is
    all; nothing is fed to the tracker, no Step Error is recorded, nothing
    is raised, and the step is marked for removal. *)
Theorem revoked_result_is_not_an_error
    results_to_pop step_key result s w1 msg w2 step :
  ready result (world s) = (true, w1) ->
  get result w1 = (inl (TaskRevokedError msg), w2) ->
  get_step_by_key execution_plan step_key = inr step ->
  scan_one results_to_pop (step_key, result) s
  = ([Yield (engine_event (Some (key step)) (revoked_message step_key)
               (marker_end DELEGATE_MARKER))],
     Ok (results_to_pop ++ [step_key]) (with_world w2 s)).
Proof.
  intros Er Eg Ek.
  assert (fetch step_key result (with_world w1 s)
          = ([Yield (engine_event (Some (key step))
                       (revoked_message step_key)
                       (marker_end DELEGATE_MARKER))],
             Ok [] (with_world w2 s))) as Ef.
  { unfold fetch. rewrite bind_run. unfold call. cbn [world with_world].
    rewrite Eg. cbn beta iota. rewrite Ek. reflexivity. }
  by rewrite (scan_one_ready _ _ _ _ _ _ _ _ Er Ef).
Qed.

(** ** Sleeping *)

Lemma filter_none (f : Action -> bool) t :
  Forall (fun a => f a = false) t -> List.filter f t = [].
Proof.
  induction 1 as [|a t Ha _ IH]; [done|]. simpl. by rewrite Ha.
Qed.

Lemma poll_phase_quiet :
  emits (fun a => is_submit a = false /\ is_sleep a = false) poll_phase.
Proof. by apply poll_phase_emits. Qed.

Lemma submit_phase_never_sleeps :
  emits (fun a => is_sleep a = false) submit_phase.
Proof. unfold submit_phase, submit_step. emits_auto; done. Qed.

(** X7.  An iteration sleeps at most once.  It sleeps, for
    [TICK_SECONDS], exactly when it ends without an exception and with
    neither [stopping] set nor a Step Error on record; an iteration that
    skips the submissions, or that raises, does not sleep. *)
Theorem tick_sleeps_once_or_never s :
  List.filter is_sleep (tick s).1
  = match (tick s).2 with
    | Ok _ s' => if skip_submission s' then [] else [Sleep TICK_SECONDS]
    | Raise _ _ => []
    end.
Proof.
  pose proof (poll_phase_quiet s) as Hpoll.
  assert (Forall (fun a => is_sleep a = false) (poll_phase s).1) as Hquiet
    by (eapply Forall_impl; [exact Hpoll|]; by intros ? [_ ?]).
  clear Hpoll.
  destruct (poll_phase s) as [t1 [[] s1|e s1]] eqn:Ep; cbn [fst] in Hquiet.
  - destruct (skip_submission s1) eqn:Hskip.
    + rewrite (tick_skip _ _ _ Ep Hskip). cbn [fst snd]. rewrite Hskip.
      by apply filter_none.
    + rewrite (tick_submit _ _ _ Ep Hskip). cbn [fst snd].
      pose proof (submission_keeps_flags s1) as [Hst Her].
      pose proof (submit_phase_never_sleeps s1) as Hsub.
      destruct (submit_phase s1) as [t2 [[] s2|e s2]] eqn:Es;
        cbn [fst] in Hsub.
      * assert ((submit_phase;; tell (Sleep TICK_SECONDS);;
                 call_ (sleep TICK_SECONDS)) s1
                = (t2 ++ [Sleep TICK_SECONDS],
                   Ok tt (with_world (sleep TICK_SECONDS (world s2)) s2)))
          as Hall by (by rewrite (bind_ok _ _ _ _ _ _ Es)).
        rewrite Hall in Hst, Her |- *.
        cbn [fst snd state_of with_world stopping step_errors] in *.
        unfold skip_submission in *.
        cbn [with_world stopping step_errors]. rewrite Hst, Her, Hskip.
        rewrite !List.filter_app, (filter_none _ t1), (filter_none _ t2);
          done.
      * rewrite (bind_raise _ _ _ _ _ _ Es). cbn [fst snd].
        rewrite List.filter_app, (filter_none _ t1), (filter_none _ t2);
          done.
  - rewrite (tick_poll_raise _ _ _ _ Ep). cbn [fst snd].
    by apply filter_none.
Qed.

(** ** Once the submissions are skipped *)

Lemma dict_set_truthy {V} k (v : V) d : dict_truthy (dict_set k v d) = true.
Proof.
  destruct d as [|[k' v'] d]; simpl; [done|]. by destruct (String.eqb k k').
Qed.

#[local] Instance skip_kept_preorder : PreOrder skip_kept.
Proof.
  split.
  - intros s Hs. exact Hs.
  - intros s1 s2 s3 H12 H23 H1. by apply H23, H12.
Qed.

Lemma skip_kept_world s w : skip_kept s (with_world w s).
Proof. intros Hs. exact Hs. Qed.

Ltac skip_kept_auto :=
  repeat first
    [ relates_step | branch_step
    | (intros ? ?; unfold skip_submission in *; cbn in *;
       first [done | by rewrite dict_set_truthy, orb_true_r]) ].

Lemma scan_keeps_skip acc items : relates skip_kept (scan acc items).
Proof.
  pose proof skip_kept_world.
  revert acc. induction items as [|item items IH]; intros acc; simpl.
  - apply relates_ret, _.
  - apply relates_bind; [apply _| |intros ?; apply IH].
    unfold scan_one, fetch. skip_kept_auto.
Qed.

Lemma tick_keeps_skip : relates skip_kept tick.
Proof.
  pose proof skip_kept_world.
  unfold tick, poll_phase, interrupt_phase, scan_phase, pop_phase,
    plan_events_phase, submit_phase, submit_step.
  skip_kept_auto. apply scan_keeps_skip.
Qed.

Lemma tick_quiet_when_skipped s :
  skip_submission (state_of (tick s).2) = true ->
  Forall (fun a => is_submit a = false /\ is_sleep a = false) (tick s).1.
Proof.
  intros Hfinal. pose proof (poll_phase_quiet s) as Hpoll.
  destruct (poll_phase s) as [t1 [[] s1|e s1]] eqn:Ep.
  - destruct (skip_submission s1) eqn:Hskip.
    + by rewrite (tick_skip _ _ _ Ep Hskip).
    + exfalso. rewrite (tick_submit _ _ _ Ep Hskip) in Hfinal.
      cbn [snd] in Hfinal.
      destruct (submission_keeps_flags s1) as [Hst Her].
      unfold skip_submission in *. rewrite Hst, Her in Hfinal. congruence.
  - by rewrite (tick_poll_raise _ _ _ _ Ep).
Qed.

(** X8.  Draining and failure are for good: once [stopping] is set or a
    Step Error is on record, it stays so to the end of the [while], and
    from then on the loop neither submits a step nor sleeps. *)
Theorem no_submission_and_no_sleep_for_the_rest (fuel : nat) s t r :
  skip_submission s = true ->
  while_loop fuel s = Some (t, r) ->
  skip_submission (state_of r) = true
  /\ Forall (fun a => is_submit a = false /\ is_sleep a = false) t.
Proof.
  revert s t r. induction fuel as [|fuel IH]; intros s t r Hskip; simpl.
  - destruct (loop_condition s); [done|]. intros [= <- <-]. by split.
  - destruct (loop_condition s); [|intros [= <- <-]; by split].
    pose proof (tick_keeps_skip s Hskip) as Hkept.
    pose proof (tick_quiet_when_skipped s Hkept) as Hquiet.
    destruct (tick s) as [t1 [[] s1|e s1]]; cbn [fst snd state_of] in *.
    + destruct (while_loop fuel s1) as [[t2 r2]|] eqn:E2; [|done].
      intros [= <- <-]. destruct (IH _ _ _ Hkept E2) as [? ?].
      split; [done|]. by apply Forall_app.
    + intros [= <- <-]. by split.
Qed.

(** ** Submitting the ready steps *)

Lemma dict_in_set_eq {V} k (v : V) d : dict_in k (dict_set k v d) = true.
Proof.
  unfold dict_in. induction d as [|[k' v'] d IH]; simpl.
  - by rewrite String.eqb_refl.
  - destruct (String.eqb k k') eqn:E; simpl.
    + by rewrite String.eqb_refl.
    + by rewrite E.
Qed.

Lemma dict_in_set_mono {V} k k' (v : V) d :
  dict_in k' d = true -> dict_in k' (dict_set k v d) = true.
Proof.
  unfold dict_in. induction d as [|[k0 v0] d IH]; simpl; [done|].
  destruct (String.eqb_spec k k0) as [->|]; simpl; [done|].
  destruct (String.eqb k' k0); simpl; [done|]. exact IH.
Qed.

Lemma submit_step_ok_inv step s t s' :
  submit_step step s = (t, Ok tt s') ->
  exists p result,
    t = [Yield (submitting_event step);
         Submit step (default (task_default_queue cfg)
                        (tags step !! DAGSTER_CELERY_QUEUE_TAG)) p]
    /\ step_results s' = dict_set (key step) result (step_results s).
Proof.
  unfold submit_step, try_except.
  rewrite bind_run. cbn beta iota. cbn [tell]. rewrite bind_run.
  destruct (_get_step_priority int cfg pipeline_context step) as [e|p];
    [discriminate|].
  cbn beta iota. cbn [of_sum mret M_ret]. rewrite bind_run.
  cbn beta iota. cbn [tell]. rewrite bind_run. unfold call.
  destruct (step_execution_fn _ _ _ _) as [[e|result] w'];
    [discriminate|].
  cbn. intros [= <- <-]. by exists p, result.
Qed.

Lemma submit_each_ok steps s t s' :
  for_each submit_step steps s = (t, Ok tt s') ->
  submitted_steps t = steps
  /\ (forall k, dict_in k (step_results s) = true ->
                dict_in k (step_results s') = true)
  /\ Forall (fun step => dict_in (key step) (step_results s') = true) steps.
Proof.
  revert s t. induction steps as [|step steps IH]; intros s t.
  - intros [= <- <-]. by repeat split.
  - cbn [for_each]. rewrite bind_run.
    destruct (submit_step step s) as [t1 [[] s1|e s1]] eqn:E1; [|done].
    destruct (for_each submit_step steps s1) as [t2 [[] s2|e s2]] eqn:E2;
      [|done].
    intros [= <- <-].
    destruct (submit_step_ok_inv _ _ _ _ E1) as (p & result & -> & Hs1).
    destruct (IH _ _ E2) as (Hsub & Hmono & Hall).
    split; [by rewrite <- Hsub|]. split.
    + intros k Hk. apply Hmono. rewrite Hs1. by apply dict_in_set_mono.
    + constructor; [|done]. apply Hmono. rewrite Hs1. apply dict_in_set_eq.
Qed.

Lemma submitted_steps_none t :
  Forall (fun a => is_submit a = false) t -> submitted_steps t = [].
Proof.
  induction 1 as [|a t Ha _ IH]; [done|].
  destruct a; try done; simpl in Ha; try discriminate; exact IH.
Qed.

(** X9.  In an iteration that ends normally without skipping the
    submissions, the steps passed to [step_execution_fn] are exactly the
    steps the tracker handed out, once each and in the tracker's order,
    and each of them has a handle among the outstanding ones when the
    iteration ends. *)
Theorem ready_steps_are_all_submitted s t s' :
  tick s = (t, Ok tt s') ->
  skip_submission s' = false ->
  exists t1 s1 steps w2,
    poll_phase s = (t1, Ok tt s1)
    /\ get_steps_to_execute (priority_for_step int cfg pipeline_context)
         (world s1) = (inr steps, w2)
    /\ submitted_steps t = steps
    /\ Forall (fun step => dict_in (key step) (step_results s') = true)
         steps.
Proof.
  intros Et Hskip'.
  pose proof (poll_phase_emits (fun a => is_submit a = false)
                ltac:(done) ltac:(done) ltac:(done) ltac:(done)
                ltac:(done) s) as Hpoll.
  destruct (poll_phase s) as [t1 [[] s1|e s1]] eqn:Ep; cbn [fst] in Hpoll.
  - destruct (skip_submission s1) eqn:Hskip.
    + rewrite (tick_skip _ _ _ Ep Hskip) in Et. injection Et as <- <-.
      congruence.
    + rewrite (tick_submit _ _ _ Ep Hskip) in Et.
      rewrite bind_run, submit_phase_run in Et.
      destruct (get_steps_to_execute _ (world s1)) as [[e|steps] w2] eqn:Eg;
        [done|].
      destruct (for_each submit_step steps (with_world w2 s1))
        as [t2 [[] s2|e s2]] eqn:E2; [|done].
      cbn in Et. injection Et as <- <-.
      destruct (submit_each_ok _ _ _ _ E2) as (Hsub & _ & Hall).
      exists t1, s1, steps, w2. repeat split; try done.
      unfold submitted_steps in *. rewrite !omap_app.
      fold (submitted_steps t1). rewrite (submitted_steps_none t1 Hpoll).
      rewrite Hsub. cbn. by rewrite app_nil_r.
  - by rewrite (tick_poll_raise _ _ _ _ Ep) in Et.
Qed.

(** The loop does not reorder the ready steps: whatever the iteration
    submits is a prefix of what the tracker handed out, in that order. *)
Lemma submit_step_submitted step s :
  submitted_steps (submit_step step s).1 = [step]
  \/ (submitted_steps (submit_step step s).1 = []
      /\ exists e s', (submit_step step s).2 = Raise e s').
Proof.
  unfold submit_step, try_except.
  rewrite bind_run. simpl. rewrite bind_run.
  destruct (_get_step_priority int cfg pipeline_context step) as [e|p];
    simpl; [right; eauto|].
  rewrite bind_run. simpl. rewrite bind_run. unfold call.
  destruct (step_execution_fn _ _ _ _) as [[e|h] w']; simpl; by left.
Qed.

Lemma submit_each_prefix steps s :
  submitted_steps (for_each submit_step steps s).1 `prefix_of` steps.
Proof.
  revert s. induction steps as [|step steps IH]; intros s.
  - done.
  - cbn [for_each]. pose proof (submit_step_submitted step s) as Hstep.
    destruct (submit_step step s) as [t [[] s1|e s1]] eqn:E1;
      cbn [fst snd] in Hstep.
    + rewrite (bind_ok _ _ _ _ _ _ E1). cbn [fst].
      destruct Hstep as [Hs|(_ & ? & ? & ?)]; [|done].
      unfold submitted_steps in *. rewrite omap_app, Hs.
      apply prefix_cons, IH.
    + rewrite (bind_raise _ _ _ _ _ _ E1). cbn [fst].
      destruct Hstep as [->|[-> _]];
        [apply prefix_cons|]; apply prefix_nil.
Qed.

Lemma tick_submits_in_tracker_order s t1 s1 steps w2 :
  poll_phase s = (t1, Ok tt s1) ->
  skip_submission s1 = false ->
  get_steps_to_execute (priority_for_step int cfg pipeline_context)
    (world s1) = (inr steps, w2) ->
  submitted_steps (tick s).1 `prefix_of` steps.
Proof.
  intros Ep Hskip Eg.
  pose proof (poll_phase_emits (fun a => is_submit a = false)
                ltac:(done) ltac:(done) ltac:(done) ltac:(done)
                ltac:(done) s) as Hpoll.
  rewrite Ep in Hpoll. cbn [fst] in Hpoll.
  rewrite (tick_submit _ _ _ Ep Hskip). cbn [fst].
  rewrite bind_run, submit_phase_run, Eg.
  pose proof (submit_each_prefix steps (with_world w2 s1)) as Hpre.
  destruct (for_each submit_step steps (with_world w2 s1))
    as [t2 [[] s2|e s2]]; simpl in *; unfold submitted_steps in *;
    rewrite !omap_app; fold (submitted_steps t1);
    rewrite (submitted_steps_none t1 Hpoll); simpl;
    [by rewrite app_nil_r|done].
Qed.

(** ** Removing the settled handles *)

Lemma dict_del_keys_sublist {V} k (d : list (string * V)) :
  sublist (dict_del k d).*1 d.*1.
Proof.
  induction d as [|[k' v'] d IH]; simpl; [done|].
  destruct (String.eqb k k'); simpl.
  - by apply sublist_cons.
  - by apply sublist_skip.
Qed.

Lemma dict_get_None {V} k (d : list (string * V)) :
  dict_get k d = None <-> k ∉ d.*1.
Proof.
  induction d as [|[k' v'] d IH]; simpl.
  - split; [intros _; apply not_elem_of_nil|done].
  - destruct (String.eqb_spec k k') as [->|Hne].
    + split; [done|]. intros Hn. exfalso. apply Hn. by left.
    + rewrite IH, not_elem_of_cons. split; [by split|by intros [_ ?]].
Qed.

Lemma dict_in_get {V} k (d : list (string * V)) :
  dict_in k d = false <-> dict_get k d = None.
Proof.
  unfold dict_in. induction d as [|[k' v'] d IH]; simpl; [done|].
  by destruct (String.eqb k k').
Qed.

Lemma dict_get_del_ne {V} k k' (d : list (string * V)) :
  k <> k' -> dict_get k' (dict_del k d) = dict_get k' d.
Proof.
  intros Hne. induction d as [|[k0 v0] d IH]; simpl; [done|].
  destruct (String.eqb_spec k k0) as [->|]; simpl.
  - by destruct (String.eqb_spec k' k0); [congruence|].
  - by rewrite IH.
Qed.

Lemma dict_get_del_eq {V} k (d : list (string * V)) :
  NoDup d.*1 -> dict_get k (dict_del k d) = None.
Proof.
  induction d as [|[k0 v0] d IH]; simpl; [done|].
  intros [Hnot Hnd]%NoDup_cons.
  destruct (String.eqb_spec k k0) as [->|Hne]; simpl.
  - by apply dict_get_None.
  - destruct (String.eqb_spec k k0); [done|]. by apply IH.
Qed.

Lemma dict_in_del_ne {V} k k' (d : list (string * V)) :
  k <> k' -> dict_in k' (dict_del k d) = dict_in k' d.
Proof.
  intros Hne. pose proof (dict_get_del_ne k k' d Hne) as Hg.
  destruct (dict_in k' d) eqn:E.
  - destruct (dict_in k' (dict_del k d)) eqn:E'; [done|].
    apply dict_in_get in E'. rewrite Hg in E'. apply dict_in_get in E'.
    congruence.
  - apply dict_in_get. rewrite Hg. by apply dict_in_get.
Qed.

(** One turn of the removal loop on a key that is outstanding. *)
Lemma pop_phase_cons_in k l s outcome w' :
  dict_in k (step_results s) = true ->
  verify_complete k (world s) = (outcome, w') ->
  let s1 := {| world := w';
               step_results := dict_del k (step_results s);
               step_errors := step_errors s;
               stopping := stopping s |} in
  pop_phase (k :: l) s
  = match outcome with
    | inr _ => (VerifyComplete k :: (pop_phase l s1).1, (pop_phase l s1).2)
    | inl e => ([VerifyComplete k], Raise e s1)
    end.
Proof.
  intros Hin Ev s1. unfold pop_phase. cbn [for_each].
  assert ((s0 ← get_state;
           if dict_in k (step_results s0)
           then del_step_result k;; tell (VerifyComplete k);;
                outcome ← call (verify_complete k); of_sum outcome
           else mret tt) s
          = ([VerifyComplete k],
             match outcome with
             | inr _ => Ok tt s1
             | inl e => Raise e s1
             end)) as Hbody.
  { rewrite bind_run. cbn [get_state]. rewrite Hin.
    rewrite bind_run. cbn [del_step_result]. rewrite bind_run. cbn [tell].
    rewrite bind_run. unfold call. cbn [world]. rewrite Ev.
    by destruct outcome as [e|[]]. }
  destruct outcome as [e|[]].
  - by rewrite (bind_raise _ _ _ _ _ _ Hbody).
  - by rewrite (bind_ok _ _ _ _ _ _ Hbody).
Qed.

Lemma pop_phase_cons_out k l s :
  dict_in k (step_results s) = false ->
  pop_phase (k :: l) s = pop_phase l s.
Proof.
  intros Hin. unfold pop_phase. cbn [for_each].
  assert ((s0 ← get_state;
           if dict_in k (step_results s0)
           then del_step_result k;; tell (VerifyComplete k);;
                outcome ← call (verify_complete k); of_sum outcome
           else mret tt) s = ([], Ok tt s)) as Hbody
    by (rewrite bind_run; cbn [get_state]; by rewrite Hin).
  rewrite (bind_ok _ _ _ _ _ _ Hbody). cbn [app]. by destruct (for_each _ l s).
Qed.


(** ** The iteration of a detected interrupt *)

#[local] Instance stopping_kept_preorder : PreOrder stopping_kept.
Proof.
  split.
  - intros s Hs. exact Hs.
  - intros s1 s2 s3 H12 H23 H1. by apply H23, H12.
Qed.

Lemma stopping_kept_world s w : stopping_kept s (with_world w s).
Proof. intros Hs. exact Hs. Qed.

Ltac stopping_kept_auto :=
  repeat first
    [ relates_step | branch_step | (intros ? ?; cbn in *; done) ].

Lemma scan_keeps_stopping acc items :
  relates stopping_kept (scan acc items).
Proof.
  pose proof stopping_kept_world.
  revert acc. induction items as [|item items IH]; intros acc; simpl.
  - apply relates_ret, _.
  - apply relates_bind; [apply _| |intros ?; apply IH].
    unfold scan_one, fetch. stopping_kept_auto.
Qed.

Lemma rest_of_tick_keeps_stopping : relates stopping_kept rest_of_tick.
Proof.
  pose proof stopping_kept_world.
  unfold rest_of_tick, scan_phase, pop_phase, plan_events_phase,
    submit_phase, submit_step.
  stopping_kept_auto. apply scan_keeps_stopping.
Qed.

(** X12.  The iteration in which the interrupt poll answers true starts
    with the cancellation notice, which names every outstanding step key,
    then marks the tracker interrupted and revokes every outstanding
    handle, in the order of [step_results]; it ends with [stopping] set,
    and submits nothing and does not sleep. *)
Theorem interrupted_iteration s :
  (check_for_interrupts (world s)).1 = true ->
  (exists t',
      (tick s).1
      = Yield (engine_event None interrupted_message
                 (interrupted (step_results s).*1))
          :: MarkInterrupted :: (Revoke <$> (step_results s).*2) ++ t')
  /\ stopping (state_of (tick s).2) = true
  /\ Forall (fun a => is_submit a = false /\ is_sleep a = false) (tick s).1.
Proof.
  intros Hint. pose proof (interrupt_phase_run s) as E0.
  destruct (check_for_interrupts (world s)) as [interrupt w].
  cbn [fst] in Hint. subst interrupt.
  assert (stopping (state_of (tick s).2) = true) as Hstop.
  { rewrite tick_split, (bind_ok _ _ _ _ _ _ E0). cbn [snd].
    by apply rest_of_tick_keeps_stopping. }
  split; [|split; [done|]].
  - rewrite tick_split, (bind_ok _ _ _ _ _ _ E0). cbn [fst].
    eexists. rewrite <- app_assoc. reflexivity.
  - apply tick_quiet_when_skipped. unfold skip_submission. by rewrite Hstop.
Qed.

End Loop.

(** * Concrete runs *)

Import Sim.

Lemma run_priority_defaults_to_zero_witness :
  _get_run_priority sim_int no_run_priority = inr 0
  /\ _get_run_priority sim_int urgent_run = inr 0.
Proof.
  split.
  - apply run_priority_defaults_to_zero. left. reflexivity.
  - apply run_priority_defaults_to_zero. right.
    exists "urgent", "invalid literal for int() with base 10: 'urgent'".
    split; reflexivity.
Defined.

(** C1, as stated, fails.  In [interrupted_run] the loop is left after
    the interrupt, once the revoked handle of [a] has been removed: the
    tracker does not report complete ([b] never ran) and the loop is
    draining, yet the condition of the [while] is false. *)
Lemma loop_exit_counterexample :
  snd <$> while_loop sim_int cfg no_run_priority (plan_of [step_a; step_b]) 6
            (start interrupted_run)
  = Some (Ok tt after_interrupted_run)
  /\ loop_condition after_interrupted_run = false
  /\ is_complete (world after_interrupted_run) = false
  /\ stopping after_interrupted_run = true
  /\ ~ (loop_condition after_interrupted_run = false
        <-> is_complete (world after_interrupted_run) = true
            /\ stopping after_interrupted_run = false
            /\ step_results after_interrupted_run = []).
Proof.
  split; [by vm_compute|]. split; [done|]. split; [done|]. split; [done|].
  intros [Hexit _]. by destruct (Hexit eq_refl) as [Hcomplete _].
Qed.

Lemma no_submission_when_draining_or_failed_witness :
  releases (world interrupted_with_ready_step) = [[step_c]]
  /\ Forall (fun a => is_submit a = false)
       (tick sim_int cfg no_run_priority (plan_of [step_a; step_c])
          interrupted_with_ready_step).1.
Proof.
  split; [reflexivity|].
  apply no_submission_when_draining_or_failed. left. reflexivity.
Defined.


Lemma aggregate_error_after_loop_witness :
  exists t s1,
    core_celery_execution_loop sim_int cfg no_run_priority
      (plan_of [step_a; step_b]) 5 one_failure
    = Some (t, Raise (aggregate_error
                        [("a", serializable_error_info_from_exc_info boom)])
                 s1).
Proof.
  assert (exists t1 s1,
             while_loop sim_int cfg no_run_priority (plan_of [step_a; step_b]) 5
               (start one_failure) = Some (t1, Ok tt s1)
             /\ step_errors s1
                = [("a", serializable_error_info_from_exc_info boom)])
    as (t1 & s1 & Hloop & Herrors)
    by (vm_compute; eexists _, _; split; reflexivity).
  exists ([] ++ t1), s1.
  rewrite (proj1 (aggregate_error_after_loop sim_int cfg no_run_priority
                    (plan_of [step_a; step_b]) 5 one_failure
                    [] (start one_failure) t1 s1 eq_refl Hloop)).
  by rewrite Herrors.
Defined.

Lemma submission_error_is_fatal_witness :
  tick sim_int cfg no_run_priority (plan_of [step_a; step_b; step_c])
    (start refused_submission)
  = ([Yield (submitting_event cfg step_a); Submit step_a "dagster" 0;
      Yield (submitting_event cfg step_b); Submit step_b "dagster" 0;
      Yield (fatal_event boom)],
     Raise boom after_refusal)
  /\ while_loop sim_int cfg no_run_priority (plan_of [step_a; step_b; step_c]) 1
       (start refused_submission)
     = Some ([Yield (submitting_event cfg step_a); Submit step_a "dagster" 0;
              Yield (submitting_event cfg step_b); Submit step_b "dagster" 0;
              Yield (fatal_event boom)],
             Raise boom after_refusal).
Proof.
  assert (loop_condition (start refused_submission) = true) as H1
    by (vm_compute; reflexivity).
  assert (poll_phase sim_int cfg no_run_priority
            (plan_of [step_a; step_b; step_c]) (start refused_submission)
          = ([], Ok tt (start refused_submission))) as H2
    by (vm_compute; reflexivity).
  assert (skip_submission (start refused_submission) = false) as H3
    by (vm_compute; reflexivity).
  assert (get_steps_to_execute (priority_for_step sim_int cfg no_run_priority)
            (world (start refused_submission))
          = (inr ([step_a] ++ step_b :: [step_c]), world after_refusal))
    as H4 by (vm_compute; reflexivity).
  assert (for_each (submit_step sim_int cfg no_run_priority) [step_a]
            (with_world (world after_refusal) (start refused_submission))
          = ([Yield (submitting_event cfg step_a);
              Submit step_a "dagster" 0], Ok tt after_refusal)) as H5
    by (vm_compute; reflexivity).
  assert (_get_step_priority sim_int cfg no_run_priority step_b = inr 0) as H6
    by (vm_compute; reflexivity).
  assert (step_execution_fn step_b
            (default (task_default_queue cfg)
               (tags step_b !! DAGSTER_CELERY_QUEUE_TAG))
            0 (world after_refusal) = (inl boom, world after_refusal)) as H7
    by (vm_compute; reflexivity).
  exact (submission_error_is_fatal sim_int cfg no_run_priority
           (plan_of [step_a; step_b; step_c]) 0
           (start refused_submission) [] (start refused_submission)
           [step_a] step_b [step_c] (world after_refusal)
           [Yield (submitting_event cfg step_a); Submit step_a "dagster" 0]
           after_refusal 0 boom (world after_refusal)
           H1 H2 H3 H4 H5 H6 H7).
Defined.

Lemma fetch_failure_is_recorded_witness :
  dict_get "a"
    (step_errors
       (state_of
          (tick sim_int cfg no_run_priority (plan_of [step_a; step_b])
             two_results_checked).2))
  = Some (serializable_error_info_from_exc_info boom)
  /\ forall event,
       HandleEvent "a" event
       ∉ (tick sim_int cfg no_run_priority (plan_of [step_a; step_b])
            two_results_checked).1.
Proof.
  assert (NoDup (step_results two_results_checked).*1) as H1
    by (by apply (bool_decide_unpack _)).
  assert (interrupt_phase two_results_checked
          = ([], Ok tt two_results_checked)) as H2
    by (vm_compute; reflexivity).
  assert (sorted (fun x => priority_for_key sim_int cfg no_run_priority
                             (plan_of [step_a; step_b]) x.1)
            (step_results two_results_checked)
          = inr ([] ++ ("a", "a") :: [("b", "b")])) as H3
    by (vm_compute; reflexivity).
  assert (scan (plan_of [step_a; step_b]) [] [] two_results_checked
          = ([], Ok [] two_results_checked)) as H4
    by reflexivity.
  assert (ready "a" (world two_results_checked)
          = (true, world two_results_checked)) as H5
    by (vm_compute; reflexivity).
  assert (get "a" (world two_results_checked)
          = (inl boom, world two_results_checked)) as H6
    by (vm_compute; reflexivity).
  pose proof (fetch_failure_is_recorded sim_int cfg no_run_priority
                (plan_of [step_a; step_b]) two_results_checked
                [] two_results_checked [] "a" "a" [("b", "b")]
                [] [] two_results_checked (world two_results_checked)
                (world two_results_checked) boom
                H1 H2 H3 H4 H5 H6 eq_refl) as H.
  exact (proj2 (proj2 (proj2 (proj2 (proj2 H))))).
Defined.

(** C7, as stated, fails.  The interrupt poll answers true in two
    iterations in a row; the handle of [a], revoked in the first and still
    outstanding, is revoked again in the second, where the loop is already
    draining. *)
Lemma repeated_revoke_counterexample :
  revoked
    (tick sim_int cfg no_run_priority (plan_of [step_a]) interrupted_twice).1
  = ["a"]
  /\ stopping
       (state_of
          (tick sim_int cfg no_run_priority (plan_of [step_a])
             interrupted_twice).2)
     = true
  /\ revoked
       (tick sim_int cfg no_run_priority (plan_of [step_a])
          (state_of
             (tick sim_int cfg no_run_priority (plan_of [step_a])
                interrupted_twice).2)).1
     = ["a"].
Proof. by vm_compute. Qed.

(** C8 on a concrete run.  [one_failure] takes five iterations, and the
    loop sleeps once, in the first: after its second iteration the state
    is [failed_and_waiting], and from there an iteration performs no
    action at all, so no sleep, and the loop goes on with the next
    iteration at once. *)
Theorem no_sleep_after_step_error :
  while_loop sim_int cfg no_run_priority (plan_of [step_a; step_b]) 4
    (start one_failure) = None
  /\ (exists t r,
        while_loop sim_int cfg no_run_priority (plan_of [step_a; step_b]) 5
          (start one_failure) = Some (t, r)
        /\ filter (fun a => is_sleep a = true) t = [Sleep TICK_SECONDS])
  /\ state_of
       (tick sim_int cfg no_run_priority (plan_of [step_a; step_b])
          (state_of
             (tick sim_int cfg no_run_priority (plan_of [step_a; step_b])
                (start one_failure)).2)).2
     = failed_and_waiting
  /\ (tick sim_int cfg no_run_priority (plan_of [step_a; step_b])
        failed_and_waiting).1 = []
  /\ loop_condition
       (state_of (tick sim_int cfg no_run_priority (plan_of [step_a; step_b])
                    failed_and_waiting).2) = true.
Proof.
  split; [by vm_compute|]. split.
  - vm_compute. eexists _, _. split; reflexivity.
  - by vm_compute.
Qed.

Lemma unparseable_step_priority_is_fatal_witness :
  tick sim_int cfg no_run_priority (plan_of [step_a; step_h; step_c])
    (start unparseable_priority)
  = ([Yield (submitting_event cfg step_a); Submit step_a "dagster" 0;
      Yield (submitting_event cfg step_h);
      Yield (fatal_event
               (ValueError "invalid literal for int() with base 10: 'high'"))],
     Raise (ValueError "invalid literal for int() with base 10: 'high'")
       after_unparseable_priority)
  /\ while_loop sim_int cfg no_run_priority (plan_of [step_a; step_h; step_c]) 1
       (start unparseable_priority)
     = Some ([Yield (submitting_event cfg step_a); Submit step_a "dagster" 0;
              Yield (submitting_event cfg step_h);
              Yield (fatal_event
                       (ValueError
                          "invalid literal for int() with base 10: 'high'"))],
             Raise
               (ValueError "invalid literal for int() with base 10: 'high'")
               after_unparseable_priority).
Proof.
  assert (tags step_h !! DAGSTER_CELERY_STEP_PRIORITY_TAG = Some "high")
    as H1 by reflexivity.
  assert (sim_int "high"
          = inl "invalid literal for int() with base 10: 'high'") as H2
    by reflexivity.
  assert (loop_condition (start unparseable_priority) = true) as H3
    by (vm_compute; reflexivity).
  assert (poll_phase sim_int cfg no_run_priority
            (plan_of [step_a; step_h; step_c]) (start unparseable_priority)
          = ([], Ok tt (start unparseable_priority))) as H4
    by (vm_compute; reflexivity).
  assert (skip_submission (start unparseable_priority) = false) as H5
    by (vm_compute; reflexivity).
  assert (get_steps_to_execute (priority_for_step sim_int cfg no_run_priority)
            (world (start unparseable_priority))
          = (inr ([step_a] ++ step_h :: [step_c]),
             world after_unparseable_priority)) as H6
    by (vm_compute; reflexivity).
  assert (for_each (submit_step sim_int cfg no_run_priority) [step_a]
            (with_world (world after_unparseable_priority)
               (start unparseable_priority))
          = ([Yield (submitting_event cfg step_a);
              Submit step_a "dagster" 0], Ok tt after_unparseable_priority))
    as H7 by (vm_compute; reflexivity).
  pose proof (unparseable_step_priority_is_fatal sim_int cfg no_run_priority
                (plan_of [step_a; step_h; step_c]) 0
                (start unparseable_priority) [] (start unparseable_priority)
                [step_a] step_h [step_c] (world after_unparseable_priority)
                [Yield (submitting_event cfg step_a);
                 Submit step_a "dagster" 0]
                after_unparseable_priority "high"
                "invalid literal for int() with base 10: 'high'"
                H1 H2 H3 H4 H5 H6 H7) as H.
  exact (conj (proj1 (proj2 (proj2 (proj2 (proj2 H)))))
              (proj1 (proj2 (proj2 (proj2 (proj2 (proj2 H))))))).
Defined.

(** ** Concrete runs for the rest of the generator *)

Lemma warn_on_priority_misuse_spec_witness :
  _warn_on_priority_misuse (plan_of [step_a; step_m; step_n]) (start idle)
  = ([LogWarn (misuse_warning ["m"])], Ok tt (start idle)).
Proof.
  refine (warn_on_priority_misuse_spec (plan_of [step_a; step_m; step_n])
            (start idle) _).
  repeat (apply Forall_cons; split; [vm_compute; by eexists|]).
  apply Forall_nil. exact I.
Defined.

Lemma in_memory_storage_is_refused_witness :
  exists msg,
    core_celery_execution_loop sim_int cfg no_run_priority in_memory_plan 0
      (script [step_a])
    = Some ([], Raise (CheckError msg) (start (script [step_a]))).
Proof.
  apply (in_memory_storage_is_refused sim_int cfg no_run_priority
           in_memory_plan 0 (script [step_a])); [discriminate|reflexivity].
Defined.

Lemma nothing_to_execute_witness :
  core_celery_execution_loop sim_int cfg no_run_priority (plan_of []) 0 idle
  = Some ([], Ok tt (start idle)).
Proof.
  apply (nothing_to_execute sim_int cfg no_run_priority (plan_of []) 0 idle);
    reflexivity.
Defined.

Lemma fetched_events_are_yielded_then_fed_witness :
  scan_one (plan_of [step_a; step_b]) ["a"] ("b", "b") two_results
  = ([Yield (deserialize_json_to_dagster_namedtuple "b");
      HandleEvent "b" (deserialize_json_to_dagster_namedtuple "b")],
     Ok ["a"; "b"]
       (with_world (handle_events ["b"] (world two_results)) two_results)).
Proof.
  apply (fetched_events_are_yielded_then_fed (plan_of [step_a; step_b])
           ["a"] "b" "b" two_results (world two_results) ["b"]
           (world two_results)); reflexivity.
Defined.

Lemma revoked_result_is_not_an_error_witness :
  scan_one (plan_of [step_a]) [] ("a", "a") revoked_result
  = ([Yield (engine_event (Some "a") (revoked_message "a")
               (marker_end DELEGATE_MARKER))],
     Ok ["a"] revoked_result).
Proof.
  apply (revoked_result_is_not_an_error (plan_of [step_a]) [] "a" "a"
           revoked_result (world revoked_result) "a" (world revoked_result)
           step_a); reflexivity.
Defined.

Lemma no_submission_and_no_sleep_for_the_rest_witness :
  exists t r,
    while_loop sim_int cfg no_run_priority (plan_of [step_a; step_b]) 3
      failed_and_waiting = Some (t, r)
    /\ skip_submission (state_of r) = true
    /\ Forall (fun a => is_submit a = false /\ is_sleep a = false) t.
Proof.
  assert (exists t r,
             while_loop sim_int cfg no_run_priority (plan_of [step_a; step_b]) 3
               failed_and_waiting = Some (t, r)) as (t & r & Hrun)
    by (vm_compute; by eexists _, _).
  exists t, r. split; [exact Hrun|].
  apply (no_submission_and_no_sleep_for_the_rest sim_int cfg no_run_priority
           (plan_of [step_a; step_b]) 3 failed_and_waiting t r);
    [reflexivity|exact Hrun].
Defined.

Lemma ready_steps_are_all_submitted_witness :
  exists t s',
    tick sim_int cfg no_run_priority (plan_of three_priorities)
      (start (script three_priorities)) = (t, Ok tt s')
    /\ key <$> submitted_steps t = ["a"; "b"; "c"]
    /\ Forall (fun step => dict_in (key step) (step_results s') = true)
         (submitted_steps t).
Proof.
  assert (exists t s',
             tick sim_int cfg no_run_priority (plan_of three_priorities)
               (start (script three_priorities)) = (t, Ok tt s')
             /\ skip_submission s' = false
             /\ key <$> submitted_steps t = ["a"; "b"; "c"])
    as (t & s' & Htick & Hskip & Hkeys)
    by (vm_compute; by eexists _, _).
  exists t, s'. split; [exact Htick|]. split; [exact Hkeys|].
  destruct (ready_steps_are_all_submitted sim_int cfg no_run_priority
              (plan_of three_priorities) (start (script three_priorities))
              t s' Htick Hskip) as (t1 & s1 & steps & w2 & _ & _ & -> & Hall).
  exact Hall.
Defined.


Lemma interrupted_iteration_witness :
  stopping
    (state_of
       (tick sim_int cfg no_run_priority (plan_of [step_a])
          interrupted_twice).2)
  = true
  /\ Forall (fun a => is_submit a = false /\ is_sleep a = false)
       (tick sim_int cfg no_run_priority (plan_of [step_a])
          interrupted_twice).1.
Proof.
  apply (interrupted_iteration sim_int cfg no_run_priority (plan_of [step_a])
           interrupted_twice). reflexivity.
Defined.
